(** * BB84 quantum key distribution engine: [backend/bb84_engine.py]

    A shallow embedding of [BB84Engine] and the properties of its
    transmission loops and of its result processor.

    Conventions of the embedding.
    - Python [int]s are [Z]; a bit is an [int] as in the source.
    - The numbers [eveInterceptionRate], [noiseLevel], the values returned by
      [random.random()] and the three metrics are rationals ([Q]); a [float]
      is the rational it denotes.  The three metrics are the exact quotients,
      compared up to [==]; the quotient [eveInterceptionRate / 100], which
      the loops compare with draws, is the [float] Python computes: the
      binary64 number nearest to the exact quotient, or [OverflowError].
    - A basis is one of the two strings ['Z'] and ['X'] of the source.
    - The module [random] (and the Qiskit backend, when it is installed) is a
      piece of state outside the engine.  It is the [world] of a [Host]; every
      call threads it explicitly.
    - A raised exception is the value [Raise name]. *)

From Stdlib Require Import String ZArith QArith List Bool Lia Lqa SpecFloat.
Import ListNotations.

Local Open Scope Z_scope.

(** ** Data *)

(** ['Z'] and ['X'], the two elements of [['Z', 'X']]. *)
Inductive basis : Type :=
| BasisZ
| BasisX.

Definition basis_eqb (a b : basis) : bool :=
  match a, b with
  | BasisZ, BasisZ | BasisX, BasisX => true
  | _, _ => false
  end.

(** Exceptions, by class name. *)
Definition exn : Type := string.
Definition ZeroDivisionError : exn := "ZeroDivisionError"%string.
Definition IndexError : exn := "IndexError"%string.
Definition OverflowError : exn := "OverflowError"%string.

Inductive outcome (A : Type) : Type :=
| Ok (a : A)
| Raise (e : exn).
Arguments Ok {A} a.
Arguments Raise {A} e.

Definition obind {A B : Type} (m : outcome A) (k : A -> outcome B)
    : outcome B :=
  match m with
  | Ok a => k a
  | Raise e => Raise e
  end.

Notation "x <-! m ;; k" := (obind m (fun x => k))
  (at level 61, m at next level, right associativity).

(** [l[i]] for [i >= 0]. *)
Definition getitem {A : Type} (l : list A) (i : nat) : outcome A :=
  match nth_error l i with
  | Some a => Ok a
  | None => Raise IndexError
  end.

(** [a < b] on numbers. *)
Definition Qltb (a b : Q) : bool :=
  match (a ?= b)%Q with
  | Lt => true
  | _ => false
  end.

(** [@dataclass BB84Result]. *)
Record BB84Result : Type := mkBB84Result {
  alice_bits : list Z;
  alice_bases : list basis;
  bob_bits : list Z;
  bob_bases : list basis;
  eve_bits : list (option Z);
  eve_bases : list (option basis);
  eve_interceptions : list bool;
  matching_bases : list bool;
  final_key : list Z;
  error_rate : Q;
  include_eve : bool;
  transmission_efficiency : Q;
  quantum_fidelity : Q
}.

(** ** True division

    [x / d] for a number [x] (an [int], or a finite [float]) and a positive
    [int] [d] is the binary64 number nearest to the exact quotient, ties to
    even; when that is beyond the largest [float] - which takes an [int] [x]
    - Python raises [OverflowError].  The quotient is [SFdiv] on the
    numerator of [x] and on [d] times its denominator, both taken as
    integers. *)

(** The integer [z] as a mantissa of exponent 0. *)
Definition raw_float (z : Z) : spec_float :=
  match z with
  | Z0 => S754_zero false
  | Zpos m => S754_finite false m 0
  | Zneg m => S754_finite true m 0
  end.

(** The rational that the finite float of sign [s], mantissa [m] and
    exponent [e] denotes. *)
Definition float_value (s : bool) (m : positive) (e : Z) : Q :=
  let z := if s then Zneg m else Zpos m in
  match e with
  | Zneg p => z # (2 ^ p)%positive
  | _ => inject_Z (z * 2 ^ e)
  end.

Definition true_divide (x : Q) (d : positive) : outcome Q :=
  match SFdiv 53 1024 (raw_float (Qnum x)) (raw_float (Zpos (d * Qden x)))
  with
  | S754_zero _ => Ok 0%Q
  | S754_finite s m e => Ok (float_value s m e)
  | _ => Raise OverflowError
  end.

(** The literal [0.01]: the [float] nearest to 1/100. *)
Definition default_noise_level : Q :=
  Eval vm_compute in
    match true_divide 1 100 with
    | Ok q => q
    | Raise _ => 0%Q
    end.

(** ** The result processor *)

(** [[a == b for a, b in zip(alice_bases, bob_bases)]]. *)
Definition compare_bases (alice_bases bob_bases : list basis) : list bool :=
  map (fun ab => basis_eqb (fst ab) (snd ab)) (combine alice_bases bob_bases).

(** The three variables the extraction loop updates. *)
Record sifting : Type := mkSifting {
  key : list Z;
  matching_count : Z;
  error_count : Z
}.

(** One iteration of [for i, matches in enumerate(matching_bases)]. *)
Definition sift_step (alice_bits bob_bits : list Z) (i : nat) (matches : bool)
    (st : sifting) : outcome sifting :=
  if matches then
    let mc := matching_count st + 1 in
    a <-! getitem alice_bits i ;;
    b <-! getitem bob_bits i ;;
    if a =? b
    then Ok (mkSifting (key st ++ [a]) mc (error_count st))
    else Ok (mkSifting (key st) mc (error_count st + 1))
  else Ok st.

(** The loop, from index [i] on. *)
Fixpoint sift_loop (alice_bits bob_bits : list Z)
    (matching_bases : list bool) (i : nat) (st : sifting) : outcome sifting :=
  match matching_bases with
  | [] => Ok st
  | matches :: rest =>
      st' <-! sift_step alice_bits bob_bits i matches st ;;
      sift_loop alice_bits bob_bits rest (S i) st'
  end.

(** [final_key = []], [matching_count = 0], [error_count = 0], then the
    loop (lines 183-193). *)
Definition sift (alice_bits bob_bits : list Z) (matching_bases : list bool)
    : outcome sifting :=
  sift_loop alice_bits bob_bits matching_bases 0%nat (mkSifting [] 0 0).

(** [sum(matching_bases)]: [True] counts for 1. *)
Definition sum_bools (matching_bases : list bool) : Z :=
  fold_left (fun acc (m : bool) => if m then acc + 1 else acc)
            matching_bases 0.

(** [sum(1 for i, matches in enumerate(matching_bases)
          if matches and alice_bits[i] == bob_bits[i])], from index [i] on. *)
Fixpoint correct_loop (alice_bits bob_bits : list Z)
    (matching_bases : list bool) (i : nat) (acc : Z) : outcome Z :=
  match matching_bases with
  | [] => Ok acc
  | matches :: rest =>
      if matches then
        a <-! getitem alice_bits i ;;
        b <-! getitem bob_bits i ;;
        correct_loop alice_bits bob_bits rest (S i)
                     (if a =? b then acc + 1 else acc)
      else correct_loop alice_bits bob_bits rest (S i) acc
  end.

Definition _calculate_fidelity (alice_bits bob_bits : list Z)
    (matching_bases : list bool) : outcome Q :=
  let matching_count := sum_bools matching_bases in
  if matching_count =? 0 then Ok 0%Q
  else
    correct_measurements <-!
      correct_loop alice_bits bob_bits matching_bases 0%nat 0 ;;
    Ok (inject_Z correct_measurements / inject_Z matching_count)%Q.

(** [error_count / matching_count if matching_count > 0 else 0]. *)
Definition error_rate_of (st : sifting) : Q :=
  if 0 <? matching_count st
  then (inject_Z (error_count st) / inject_Z (matching_count st))%Q
  else 0%Q.

(** [len(final_key) / len(alice_bits)]. *)
Definition efficiency_of (final_key alice_bits : list Z) : outcome Q :=
  let d := Z.of_nat (length alice_bits) in
  if d =? 0 then Raise ZeroDivisionError
  else Ok (inject_Z (Z.of_nat (length final_key)) / inject_Z d)%Q.

Definition _process_results (alice_bits : list Z) (alice_bases : list basis)
    (bob_bits : list Z) (bob_bases : list basis)
    (eve_bits : list (option Z)) (eve_bases : list (option basis))
    (eve_interceptions : list bool) (include_eve : bool)
    : outcome BB84Result :=
  let matching_bases := compare_bases alice_bases bob_bases in
  st <-! sift alice_bits bob_bits matching_bases ;;
  let error_rate := error_rate_of st in
  transmission_efficiency <-! efficiency_of (key st) alice_bits ;;
  quantum_fidelity <-!
    _calculate_fidelity alice_bits bob_bits matching_bases ;;
  Ok (mkBB84Result alice_bits alice_bases bob_bits bob_bases
        eve_bits eve_bases eve_interceptions matching_bases
        (key st) error_rate include_eve
        transmission_efficiency quantum_fidelity).

(** ** The host: [random] and the optional Qiskit backend *)

(** A [QuantumCircuit(1, 1)] is the list of the gates applied to qubit 0, in
    the order of the calls [qc.x(0)], [qc.h(0)] and [qc.measure(0, 0)]. *)
Inductive gate : Type :=
| GateX
| GateH
| Measure.

Definition circuit : Type := list gate.

Record Host : Type := mkHost {
  world : Type;
  (** [random.randint(0, 1)] *)
  randint : world -> Z * world;
  (** [random.choice(['Z', 'X'])] *)
  choice : world -> basis * world;
  (** [random.random()] *)
  random : world -> Q * world;
  (** the outcome of the [try: import qiskit ...] at load time *)
  QISKIT_AVAILABLE : bool;
  (** transpile the circuit, run one shot on [self.backend], and read the
      only key of [get_counts()] as an [int] *)
  run_shot : circuit -> world -> Z * world
}.

(** [random.random()] returns a number of the interval [[0, 1)]. *)
Definition random_in_unit (H : Host) : Prop :=
  forall w : world H, (0 <= fst (random H w) /\ fst (random H w) < 1)%Q.

(** Computations that read and advance the world. *)
Definition Rand (W A : Type) : Type := W -> A * W.

Definition ret {W A : Type} (a : A) : Rand W A := fun w => (a, w).

Definition bind {W A B : Type} (m : Rand W A) (k : A -> Rand W B) : Rand W B :=
  fun w => let (a, w') := m w in k a w'.

Notation "x <- m ;; k" := (bind m (fun x => k))
  (at level 61, m at next level, right associativity).

(** [[f() for _ in range(n)]]. *)
Fixpoint draws {W A : Type} (f : Rand W A) (n : nat) : Rand W (list A) :=
  match n with
  | O => ret []
  | S n' => x <- f ;; xs <- draws f n' ;; ret (x :: xs)
  end.

(** [range(num_qubits)]: empty when [num_qubits <= 0]. *)
Definition range (n : Z) : list nat := seq 0 (Z.to_nat n).

(** The four lists the transmission loops append to. *)
Record log : Type := mkLog {
  log_eve_interceptions : list bool;
  log_eve_bits : list (option Z);
  log_eve_bases : list (option basis);
  log_bob_bits : list Z
}.

Definition empty_log : log := mkLog [] [] [] [].

(** What one iteration appends. *)
Record photon : Type := mkPhoton {
  eve_intercepts : bool;
  eve_bit : option Z;
  eve_basis : option basis;
  bob_bit : Z
}.

Definition append (l : log) (p : photon) : log :=
  mkLog (log_eve_interceptions l ++ [eve_intercepts p])
        (log_eve_bits l ++ [eve_bit p])
        (log_eve_bases l ++ [eve_basis p])
        (log_bob_bits l ++ [bob_bit p]).

(** The lists a transmission hands to the result processor. *)
Record transmission : Type := mkTransmission {
  tx_alice_bits : list Z;
  tx_alice_bases : list basis;
  tx_bob_bases : list basis;
  tx_log : log
}.

(** [params: Dict], read with [params.get(name, default)]. *)
Record params : Type := mkParams {
  numQubits : option Z;
  includeEve : option bool;
  eveInterceptionRate : option Q;
  noiseLevel : option Q
}.

Definition get {A : Type} (field : option A) (default : A) : A :=
  match field with
  | Some v => v
  | None => default
  end.

(** Line 46: [params.get('eveInterceptionRate', 30) / 100]. *)
Definition eve_rate_of (p : params) : outcome Q :=
  true_divide (get (eveInterceptionRate p) 30%Q) 100.

Section Engine.

Context (H : Host).

Local Abbreviation W := (world H).

(** [include_eve and random.random() < eve_rate]: no draw when [include_eve]
    is false. *)
Definition eve_decides (include_eve : bool) (eve_rate : Q) : Rand W bool :=
  if include_eve then r <- random H ;; ret (Qltb r eve_rate) else ret false.

(** *** [_classical_simulation] *)

(** What reaches Bob, with what the loop records about Eve. *)
Record forwarded : Type := mkForwarded {
  fw_intercepts : bool;
  fw_eve_bit : option Z;
  fw_eve_basis : option basis;
  transmitted_bit : Z;
  transmitted_basis : basis
}.

(** Lines 138-160.  [i] ranges over [range(num_qubits)] and the three lists
    have [num_qubits] elements ([draws_length]), so [alice_bits[i]] never
    raises and is [nth i alice_bits _]. *)
Definition classical_eve (alice_bits : list Z) (alice_bases : list basis)
    (include_eve : bool) (eve_rate : Q) (i : nat) : Rand W forwarded :=
  eve_intercepts <- eve_decides include_eve eve_rate ;;
  if eve_intercepts then
    eve_basis <- choice H ;;
    eve_bit <- (if basis_eqb eve_basis (nth i alice_bases BasisZ)
                then ret (nth i alice_bits 0)
                else randint H) ;;
    ret (mkForwarded true (Some eve_bit) (Some eve_basis) eve_bit eve_basis)
  else
    ret (mkForwarded false None None
           (nth i alice_bits 0) (nth i alice_bases BasisZ)).

(** Lines 162-169, with [b_basis] for [bob_bases[i]]. *)
Definition classical_bob (b_basis : basis) (t_bit : Z) (t_basis : basis)
    (noise_level : Q) : Rand W Z :=
  if basis_eqb b_basis t_basis then
    r <- random H ;;
    ret (if Qltb r noise_level then 1 - t_bit else t_bit)
  else randint H.

(** The body of the loop, lines 138-171, up to the four [append]s. *)
Definition classical_photon (alice_bits : list Z)
    (alice_bases bob_bases : list basis) (include_eve : bool)
    (eve_rate noise_level : Q) (i : nat) : Rand W photon :=
  fw <- classical_eve alice_bits alice_bases include_eve eve_rate i ;;
  b <- classical_bob (nth i bob_bases BasisZ) (transmitted_bit fw)
         (transmitted_basis fw) noise_level ;;
  ret (mkPhoton (fw_intercepts fw) (fw_eve_bit fw) (fw_eve_basis fw) b).

(** [for i in range(num_qubits)], over a loop body [body]; each iteration
    appends to the four lists. *)
Fixpoint photon_loop (body : nat -> Rand W photon) (idx : list nat) (l : log)
    : Rand W log :=
  match idx with
  | [] => ret l
  | i :: rest => p <- body i ;; photon_loop body rest (append l p)
  end.

(** What both simulations do before they call the result processor: the
    three comprehensions (lines 57-59 and 128-130), the four empty lists, and
    the loop. *)
Definition transmit
    (body : list Z -> list basis -> list basis -> nat -> Rand W photon)
    (num_qubits : Z) : Rand W transmission :=
  alice_bits <- draws (randint H) (Z.to_nat num_qubits) ;;
  alice_bases <- draws (choice H) (Z.to_nat num_qubits) ;;
  bob_bases <- draws (choice H) (Z.to_nat num_qubits) ;;
  l <- photon_loop (body alice_bits alice_bases bob_bases)
         (range num_qubits) empty_log ;;
  ret (mkTransmission alice_bits alice_bases bob_bases l).

(** [self._process_results(alice_bits, alice_bases, bob_bits, bob_bases,
    eve_bits, eve_bases, eve_interceptions, include_eve)]. *)
Definition process (include_eve : bool) (t : transmission)
    : outcome BB84Result :=
  _process_results (tx_alice_bits t) (tx_alice_bases t)
    (log_bob_bits (tx_log t)) (tx_bob_bases t)
    (log_eve_bits (tx_log t)) (log_eve_bases (tx_log t))
    (log_eve_interceptions (tx_log t)) include_eve.

Definition classical_transmission (num_qubits : Z) (include_eve : bool)
    (eve_rate noise_level : Q) : Rand W transmission :=
  transmit (fun alice_bits alice_bases bob_bases =>
              classical_photon alice_bits alice_bases bob_bases include_eve
                               eve_rate noise_level)
           num_qubits.

Definition _classical_simulation (num_qubits : Z) (include_eve : bool)
    (eve_rate noise_level : Q) : Rand W (outcome BB84Result) :=
  t <- classical_transmission num_qubits include_eve eve_rate noise_level ;;
  ret (process include_eve t).

(** *** [_quantum_simulation] *)

Definition hadamard_if_X (b : basis) : circuit :=
  match b with
  | BasisX => [GateH]
  | BasisZ => []
  end.

(** [QuantumCircuit(1, 1)], then [x(0)] if the bit is 1 and [h(0)] if the
    basis is ['X']. *)
Definition prepare (bit : Z) (b : basis) : circuit :=
  (if bit =? 1 then [GateX] else []) ++ hadamard_if_X b.

(** [h(0)] if the basis is ['X'], [measure(0, 0)], one shot. *)
Definition measure (qc : circuit) (b : basis) : Rand W Z :=
  run_shot H (qc ++ hadamard_if_X b ++ [Measure]).

(** Lines 77-107: Eve's records and the circuit that goes on to Bob. *)
Definition quantum_eve (qc : circuit) (include_eve : bool) (eve_rate : Q)
    : Rand W (bool * option Z * option basis * circuit) :=
  eve_intercepts <- eve_decides include_eve eve_rate ;;
  if eve_intercepts then
    eve_basis <- choice H ;;
    eve_bit <- measure qc eve_basis ;;
    ret (true, Some eve_bit, Some eve_basis, prepare eve_bit eve_basis)
  else
    ret (false, None, None, qc).

(** The body of the loop, lines 67-120; the indices are in range as in
    [classical_eve]. *)
Definition quantum_photon (alice_bits : list Z)
    (alice_bases bob_bases : list basis) (include_eve : bool) (eve_rate : Q)
    (i : nat) : Rand W photon :=
  let qc := prepare (nth i alice_bits 0) (nth i alice_bases BasisZ) in
  e <- quantum_eve qc include_eve eve_rate ;;
  let '(eve_intercepts, eve_bit, eve_basis, qc') := e in
  bob_bit <- measure qc' (nth i bob_bases BasisZ) ;;
  ret (mkPhoton eve_intercepts eve_bit eve_basis bob_bit).

Definition quantum_transmission (num_qubits : Z) (include_eve : bool)
    (eve_rate : Q) : Rand W transmission :=
  transmit (fun alice_bits alice_bases bob_bases =>
              quantum_photon alice_bits alice_bases bob_bases include_eve
                             eve_rate)
           num_qubits.

(** [noise_level] is a parameter the body never reads. *)
Definition _quantum_simulation (num_qubits : Z) (include_eve : bool)
    (eve_rate noise_level : Q) : Rand W (outcome BB84Result) :=
  t <- quantum_transmission num_qubits include_eve eve_rate ;;
  ret (process include_eve t).

(** *** [simulate] *)

(** Lines 47-52, once line 46 has returned [eve_rate]. *)
Definition simulate_with (p : params) (eve_rate : Q)
    : Rand W (outcome BB84Result) :=
  let num_qubits := get (numQubits p) 20 in
  let include_eve := get (includeEve p) false in
  let noise_level := get (noiseLevel p) default_noise_level in
  if QISKIT_AVAILABLE H && (num_qubits <=? 50)
  then _quantum_simulation num_qubits include_eve eve_rate noise_level
  else _classical_simulation num_qubits include_eve eve_rate noise_level.

(** The lists the selected backend builds, once line 46 has returned
    [eve_rate]. *)
Definition transmission_with (p : params) (eve_rate : Q)
    : Rand W transmission :=
  let num_qubits := get (numQubits p) 20 in
  let include_eve := get (includeEve p) false in
  let noise_level := get (noiseLevel p) default_noise_level in
  if QISKIT_AVAILABLE H && (num_qubits <=? 50)
  then quantum_transmission num_qubits include_eve eve_rate
  else classical_transmission num_qubits include_eve eve_rate noise_level.

(** Lines 44-52.  The quotient of line 46 is computed, and may raise, before
    anything is drawn. *)
Definition simulate (p : params) : Rand W (outcome BB84Result) :=
  let num_qubits := get (numQubits p) 20 in
  let include_eve := get (includeEve p) false in
  match eve_rate_of p with
  | Raise e => ret (Raise e)
  | Ok eve_rate =>
      let noise_level := get (noiseLevel p) default_noise_level in
      if QISKIT_AVAILABLE H && (num_qubits <=? 50)
      then _quantum_simulation num_qubits include_eve eve_rate noise_level
      else _classical_simulation num_qubits include_eve eve_rate noise_level
  end.

(** The lists built by a call of [simulate]: those of the selected backend,
    or none when line 46 raises. *)
Definition simulate_transmission (p : params)
    : Rand W (outcome transmission) :=
  match eve_rate_of p with
  | Raise e => ret (Raise e)
  | Ok eve_rate => t <- transmission_with p eve_rate ;; ret (Ok t)
  end.

End Engine.

(** ** A scripted host

    The world is the list of the numbers of [[0, 1)] still to be drawn; a
    bit or a basis is read off the next number, below or above one half.
    [Qiskit] runs the circuits on an ideal qubit. *)
Module Script.

Definition next (w : list Q) : Q * list Q :=
  match w with
  | [] => (0%Q, [])
  | q :: w' => (if Qle_bool 0 q && Qltb q 1 then q else 0%Q, w')
  end.

Definition randint (w : list Q) : Z * list Q :=
  let (q, w') := next w in (if Qltb q (1 # 2) then 0 else 1, w').

Definition choice (w : list Q) : basis * list Q :=
  let (q, w') := next w in (if Qltb q (1 # 2) then BasisZ else BasisX, w').

(** The four states a BB84 qubit goes through. *)
Inductive qubit : Type :=
| Zero
| One
| Plus
| Minus.

Definition apply (g : gate) (q : qubit) : qubit :=
  match g, q with
  | GateX, Zero => One
  | GateX, One => Zero
  | GateH, Zero => Plus
  | GateH, One => Minus
  | GateH, Plus => Zero
  | GateH, Minus => One
  | _, _ => q
  end.

Fixpoint run (qc : circuit) (q : qubit) (w : list Q) : Z * list Q :=
  match qc with
  | [] => (0, w)
  | Measure :: _ =>
      match q with
      | Zero => (0, w)
      | One => (1, w)
      | Plus | Minus => randint w
      end
  | g :: qc' => run qc' (apply g q) w
  end.

Definition Classical : Host :=
  mkHost (list Q) randint choice next false (fun qc => run qc Zero).

Definition Qiskit : Host :=
  mkHost (list Q) randint choice next true (fun qc => run qc Zero).

End Script.

(** ** The result processor in the words of the specification

    A [PhotonRecord] per photon; sifting keeps the records whose bases match;
    the final key is made of Alice's bits of the sifted records on which
    both bits agree, and the other sifted records are the errors. *)
Module Spec.

Record PhotonRecord : Type := mkPhotonRecord {
  aliceBit : Z;
  aliceBasis : basis;
  bobBit : Z;
  bobBasis : basis
}.

Definition basesMatch (r : PhotonRecord) : bool :=
  basis_eqb (aliceBasis r) (bobBasis r).

Definition agree (r : PhotonRecord) : bool := aliceBit r =? bobBit r.

Definition record_at (abits : list Z) (abases : list basis) (bbits : list Z)
    (bbases : list basis) (i : nat) : PhotonRecord :=
  mkPhotonRecord (nth i abits 0) (nth i abases BasisZ)
                 (nth i bbits 0) (nth i bbases BasisZ).

(** The records of the photons [i, i+1, ..., i+k-1]. *)
Definition records_from (abits : list Z) (abases : list basis)
    (bbits : list Z) (bbases : list basis) (i k : nat) : list PhotonRecord :=
  map (record_at abits abases bbits bbases) (seq i k).

Definition records (abits : list Z) (abases : list basis) (bbits : list Z)
    (bbases : list basis) : list PhotonRecord :=
  records_from abits abases bbits bbases 0 (length abits).

Definition sifted (rs : list PhotonRecord) : list PhotonRecord :=
  filter basesMatch rs.

Definition finalKey (rs : list PhotonRecord) : list Z :=
  map aliceBit (filter agree (sifted rs)).

Definition errorCount (rs : list PhotonRecord) : Z :=
  Z.of_nat (length (filter (fun r => negb (agree r)) (sifted rs))).

Definition siftedCount (rs : list PhotonRecord) : Z :=
  Z.of_nat (length (sifted rs)).

Definition errorRate (rs : list PhotonRecord) : Q :=
  if siftedCount rs =? 0 then 0%Q
  else (inject_Z (errorCount rs) / inject_Z (siftedCount rs))%Q.

End Spec.

(** ** Quotients as Python computes them

    [a / b] on two [int]s is the binary64 number nearest to the exact
    quotient, and [1 - x] is the binary64 difference.  Only the remark that
    follows the fidelity identity uses them. *)
Module Double.

Definition prec : Z := 53.
Definition emax : Z := 1024.

(** [float(n)], exact for [|n| < 2**53]. *)
Definition of_int (n : Z) : spec_float := binary_normalize prec emax n 0 false.

Definition truediv (a b : Z) : spec_float :=
  SFdiv prec emax (of_int a) (of_int b).

Definition one_minus (x : spec_float) : spec_float :=
  SFsub prec emax (of_int 1) x.

End Double.

(** ** Definitions used in the statements *)

(** The value [_calculate_fidelity] returns on well-formed lists. *)
Definition fidelity_of (rs : list Spec.PhotonRecord) : Q :=
  if Spec.siftedCount rs =? 0 then 0%Q
  else (inject_Z (Z.of_nat (length (Spec.finalKey rs)))
        / inject_Z (Spec.siftedCount rs))%Q.

(** All seven lists have the same length [n]. *)
Definition well_formed (n : nat) (t : transmission) : Prop :=
  length (tx_alice_bits t) = n /\
  length (tx_alice_bases t) = n /\
  length (tx_bob_bases t) = n /\
  length (log_bob_bits (tx_log t)) = n /\
  length (log_eve_bits (tx_log t)) = n /\
  length (log_eve_bases (tx_log t)) = n /\
  length (log_eve_interceptions (tx_log t)) = n.

Definition records_of (t : transmission) : list Spec.PhotonRecord :=
  Spec.records (tx_alice_bits t) (tx_alice_bases t)
               (log_bob_bits (tx_log t)) (tx_bob_bases t).

Definition result_of (inc_eve : bool) (t : transmission) : BB84Result :=
  mkBB84Result (tx_alice_bits t) (tx_alice_bases t)
    (log_bob_bits (tx_log t)) (tx_bob_bases t)
    (log_eve_bits (tx_log t)) (log_eve_bases (tx_log t))
    (log_eve_interceptions (tx_log t))
    (compare_bases (tx_alice_bases t) (tx_bob_bases t))
    (Spec.finalKey (records_of t)) (Spec.errorRate (records_of t)) inc_eve
    (inject_Z (Z.of_nat (length (Spec.finalKey (records_of t))))
     / inject_Z (Z.of_nat (length (tx_alice_bits t))))%Q
    (fidelity_of (records_of t)).

(** [x] brought back into [[lo, hi]]. *)
Definition clamp (lo hi x : Q) : Q :=
  if Qltb x lo then lo else if Qltb hi x then hi else x.

(** The parameters with [eveInterceptionRate] clamped to [[0, 100]] and
    [noiseLevel] clamped to [[0, 1]]. *)
Definition clamp_params (p : params) : params :=
  mkParams (numQubits p) (includeEve p)
    (option_map (clamp 0 100) (eveInterceptionRate p))
    (option_map (clamp 0 1) (noiseLevel p)).



(** What the four lists of a log hold at index [j]. *)
Definition photon_at (l : log) (j : nat) : option photon :=
  match nth_error (log_eve_interceptions l) j, nth_error (log_eve_bits l) j,
        nth_error (log_eve_bases l) j, nth_error (log_bob_bits l) j with
  | Some e, Some eb, Some ebasis, Some b => Some (mkPhoton e eb ebasis b)
  | _, _, _, _ => None
  end.

(** The transmission interrupted when iteration [i] of the loop starts. *)
Definition transmit_until (H : Host)
    (body : list Z -> list basis -> list basis -> nat -> Rand (world H) photon)
    (num_qubits : Z) (i : nat) : Rand (world H) transmission :=
  abits <- draws (randint H) (Z.to_nat num_qubits) ;;
  abases <- draws (choice H) (Z.to_nat num_qubits) ;;
  bbases <- draws (choice H) (Z.to_nat num_qubits) ;;
  l <- photon_loop H (body abits abases bbases) (seq 0 i) empty_log ;;
  ret (mkTransmission abits abases bbases l).

(** The four lists of a log have [k] elements each. *)
Definition balanced (k : nat) (l : log) : Prop :=
  length (log_bob_bits l) = k /\
  length (log_eve_bits l) = k /\
  length (log_eve_bases l) = k /\
  length (log_eve_interceptions l) = k.

(** ** Definitions used in the further properties *)

(** A record read from Bob's side: the two parties exchanged. *)
Definition swap_roles (r : Spec.PhotonRecord) : Spec.PhotonRecord :=
  Spec.mkPhotonRecord (Spec.bobBit r) (Spec.bobBasis r)
                      (Spec.aliceBit r) (Spec.aliceBasis r).

(** The [int]s 0 and 1. *)
Definition is_bit (z : Z) : Prop := z = 0 \/ z = 1.

Definition is_optional_bit (o : option Z) : Prop :=
  match o with
  | Some z => is_bit z
  | None => True
  end.

(** [random.randint(0, 1)] returns 0 or 1, and a shot of a circuit with one
    classical bit reads ['0'] or ['1']. *)
Definition bits_from (H : Host) : Prop :=
  (forall w : world H, is_bit (fst (randint H w))) /\
  (forall (qc : circuit) (w : world H), is_bit (fst (run_shot H qc w))).

(** Eve's three records of one iteration go together. *)
Definition eve_consistent (ph : photon) : Prop :=
  (eve_intercepts ph = true
   /\ (exists b : Z, eve_bit ph = Some b)
   /\ (exists bs : basis, eve_basis ph = Some bs))
  \/ (eve_intercepts ph = false /\ eve_bit ph = None /\ eve_basis ph = None).

(** The host [H] with a counter of the calls to [random]: every
    [randint], [choice] and [random] adds one; a shot of the backend adds
    nothing. *)
Definition counted (H : Host) : Host :=
  mkHost (world H * nat)
    (fun wc => let (x, w') := randint H (fst wc) in (x, (w', S (snd wc))))
    (fun wc => let (x, w') := choice H (fst wc) in (x, (w', S (snd wc))))
    (fun wc => let (x, w') := random H (fst wc) in (x, (w', S (snd wc))))
    (QISKIT_AVAILABLE H)
    (fun qc wc => let (x, w') := run_shot H qc (fst wc) in (x, (w', snd wc))).

(** [mC] on the counting host does what [m] does on the host, and counts
    between [lo] and [hi] calls. *)
Definition tracks {H : Host} {A : Type} (lo hi : nat)
    (mC : Rand (world H * nat) A) (m : Rand (world H) A) : Prop :=
  forall (w : world H) (c : nat),
    exists k : nat,
      (lo <= k <= hi)%nat
      /\ mC (w, c) = (fst (m w), (snd (m w), (c + k)%nat)).

(** The calls to [random] of one decision of Eve. *)
Definition decision_calls (inc_eve : bool) : nat := if inc_eve then 1 else 0.

(** [m * 2 ^ e >= 1], on integers. *)
Definition at_least_one (m e : Z) : Prop := 1 <= m /\ 2 ^ (- e) <= m.

(** The number of [True] in a list of booleans. *)
Definition count_true (l : list bool) : Z :=
  Z.of_nat (count_occ bool_dec l true).

(** ** True division: sign and size of the quotient *)

Lemma digits2_pos_size (p : positive) : digits2_pos p = Pos.size p.
Proof. induction p; simpl; congruence. Qed.

Lemma digits2_bounds (p : positive) :
  2 ^ (Zpos (digits2_pos p) - 1) <= Zpos p < 2 ^ Zpos (digits2_pos p).
Proof.
  rewrite digits2_pos_size.
  pose proof (Pos.size_gt p) as Hgt. pose proof (Pos.size_le p) as Hle.
  split.
  - assert (H2 : (2 ^ Pos.size p <= p~0)%positive) by exact Hle.
    apply Pos2Z.pos_le_pos in H2. rewrite Pos2Z.inj_pow in H2.
    change (Zpos p~0) with (2 * Zpos p) in H2.
    replace (Zpos (Pos.size p)) with (Zpos (Pos.size p) - 1 + 1) in H2 by lia.
    rewrite Z.pow_add_r in H2 by lia. change (2 ^ 1) with 2 in H2. lia.
  - apply Pos2Z.pos_lt_pos in Hgt. now rewrite Pos2Z.inj_pow in Hgt.
Qed.

Lemma shr_1_m (mrs : shr_record) :
  0 <= shr_m mrs -> shr_m (shr_1 mrs) = shr_m mrs / 2.
Proof.
  destruct mrs as [m r s]. cbn [shr_m]. intros Hm.
  destruct m as [|[p|p|]|p]; cbn [shr_1 shr_m]; try lia;
    try reflexivity.
  - change (Zpos p~1) with (2 * Zpos p + 1).
    apply Z.div_unique with 1; lia.
  - change (Zpos p~0) with (2 * Zpos p).
    apply Z.div_unique with 0; lia.
Qed.

Lemma shr_1_nonneg (mrs : shr_record) :
  0 <= shr_m mrs -> 0 <= shr_m (shr_1 mrs).
Proof.
  intros Hm. rewrite shr_1_m by exact Hm. apply Z.div_pos; lia.
Qed.

Lemma iter_shr_1_m (p : positive) (mrs : shr_record) :
  0 <= shr_m mrs ->
  0 <= shr_m (iter_pos shr_1 p mrs)
  /\ shr_m (iter_pos shr_1 p mrs) = shr_m mrs / 2 ^ Zpos p.
Proof.
  revert mrs. induction p as [p IH|p IH|]; intros mrs Hm; cbn [iter_pos].
  - pose proof (shr_1_nonneg mrs Hm) as H1.
    destruct (IH (shr_1 mrs) H1) as (H2 & E2).
    destruct (IH _ H2) as (H3 & E3).
    split; [exact H3|].
    rewrite E3, E2, shr_1_m by exact Hm.
    assert (0 < 2 ^ Zpos p) by (apply Z.pow_pos_nonneg; lia).
    rewrite !Z.div_div by lia.
    f_equal. replace (Zpos p~1) with (1 + Zpos p + Zpos p) by lia.
    rewrite !Z.pow_add_r by lia. change (2 ^ 1) with 2. ring.
  - destruct (IH mrs Hm) as (H2 & E2).
    destruct (IH _ H2) as (H3 & E3).
    split; [exact H3|].
    assert (0 < 2 ^ Zpos p) by (apply Z.pow_pos_nonneg; lia).
    rewrite E3, E2. rewrite Z.div_div by lia.
    f_equal. replace (Zpos p~0) with (Zpos p + Zpos p) by lia.
    rewrite !Z.pow_add_r by lia. ring.
  - split; [now apply shr_1_nonneg | now apply shr_1_m].
Qed.

Lemma shr_record_of_loc_m (m : Z) (l : location) :
  shr_m (shr_record_of_loc m l) = m.
Proof. now destruct l as [|[| |]]. Qed.

Lemma shr_fexp_at_least_one (m e : Z) (l : location) :
  at_least_one m e ->
  let '(mrs, e') := shr_fexp 53 1024 m e l in
  at_least_one (shr_m mrs) e'.
Proof.
  intros (H1 & H2).
  destruct m as [|p|p]; try lia.
  unfold shr_fexp, shr. cbn [Zdigits2].
  pose proof (digits2_bounds p) as (Hlo & Hhi).
  set (d := Zpos (digits2_pos p)) in *.
  assert (Hd : 1 <= d) by (unfold d; lia).
  assert (Hde : 1 <= d + e).
  { destruct (Z.le_gt_cases e 0) as [He|He]; [|lia].
    assert (2 ^ (- e) < 2 ^ d) by lia.
    apply Z.pow_lt_mono_r_iff in H; lia. }
  unfold fexp, emin.
  replace (Z.max (d + e - 53) (3 - 1024 - 53) - e) with (d - 53) by lia.
  destruct (d - 53) as [|n|n] eqn:En.
  - rewrite shr_record_of_loc_m. split; assumption.
  - destruct (iter_shr_1_m n (shr_record_of_loc (Zpos p) l)) as (_ & E).
    { rewrite shr_record_of_loc_m. lia. }
    rewrite E, shr_record_of_loc_m.
    assert (Hp : 2 ^ 52 * 2 ^ Zpos n <= Zpos p).
    { rewrite <- Z.pow_add_r by lia.
      replace (52 + Zpos n) with (d - 1) by lia. exact Hlo. }
    assert (H52 : 2 ^ 52 <= Zpos p / 2 ^ Zpos n).
    { apply Z.div_le_lower_bound; [apply Z.pow_pos_nonneg; lia | lia]. }
    assert (H1' : 1 <= Zpos p / 2 ^ Zpos n).
    { apply Z.le_trans with (2 ^ 52); [discriminate | exact H52]. }
    split; [exact H1'|].
    destruct (Z.le_gt_cases (- (e + Zpos n)) 0) as [Hs|Hs].
    + apply Z.le_trans with 1; [|exact H1'].
      destruct (Z.eq_dec (- (e + Zpos n)) 0) as [E0|E0].
      * rewrite E0. reflexivity.
      * rewrite Z.pow_neg_r by lia. discriminate.
    + apply Z.div_le_lower_bound; [apply Z.pow_pos_nonneg; lia|].
      rewrite <- Z.pow_add_r by lia.
      replace (Zpos n + - (e + Zpos n)) with (- e) by lia. exact H2.
  - rewrite shr_record_of_loc_m. split; assumption.
Qed.

Lemma round_nearest_even_ge (m : Z) (l : location) :
  m <= round_nearest_even m l.
Proof.
  destruct l as [|[| |]]; cbn [round_nearest_even]; try lia.
  destruct (Z.even m); lia.
Qed.

Lemma binary_round_aux_at_least_one (s : bool) (m e : Z) (l : location) :
  at_least_one m e ->
  match binary_round_aux 53 1024 s m e l with
  | S754_finite s' m' e' => s' = s /\ at_least_one (Zpos m') e'
  | S754_infinity s' => s' = s
  | _ => False
  end.
Proof.
  intros Hm. unfold binary_round_aux.
  pose proof (shr_fexp_at_least_one m e l Hm) as H1.
  destruct (shr_fexp 53 1024 m e l) as [mrs1 e1].
  assert (H2 : at_least_one
                 (round_nearest_even (shr_m mrs1) (loc_of_shr_record mrs1)) e1).
  { destruct H1 as (A & B).
    pose proof (round_nearest_even_ge (shr_m mrs1) (loc_of_shr_record mrs1)).
    split; lia. }
  pose proof (shr_fexp_at_least_one _ e1 loc_Exact H2) as H3.
  destruct (shr_fexp 53 1024 _ e1 loc_Exact) as [mrs2 e2].
  destruct H3 as (A & B).
  destruct (shr_m mrs2) as [|m2|m2]; try lia.
  destruct (e2 <=? 1024 - 53); [split; [reflexivity | split; assumption]
                              | reflexivity].
Qed.

Lemma binary_round_aux_sign (s : bool) (m e : Z) (l : location) :
  match binary_round_aux 53 1024 s m e l with
  | S754_finite s' _ _ | S754_infinity s' | S754_zero s' => s' = s
  | S754_nan => True
  end.
Proof.
  unfold binary_round_aux.
  destruct (shr_fexp 53 1024 m e l) as [mrs1 e1].
  destruct (shr_fexp 53 1024 _ e1 loc_Exact) as [mrs2 e2].
  destruct (shr_m mrs2); [reflexivity| |exact I].
  now destruct (e2 <=? 1024 - 53).
Qed.

Lemma div_core_at_least_one (a c : positive) :
  (c <= a)%positive ->
  let '(q, e, l) := SFdiv_core_binary 53 1024 (Zpos a) 0 (Zpos c) 0 in
  at_least_one q e.
Proof.
  intros Hca. unfold SFdiv_core_binary.
  set (e' := Z.min _ (0 - 0)).
  assert (He : e' <= 0) by (unfold e'; lia).
  replace (0 - 0 - e') with (- e') by lia.
  set (m' := match - e' with Z0 => Zpos a | Zpos _ => Z.shiftl (Zpos a) (- e')
                        | Zneg _ => 0 end).
  assert (Hm : m' = Zpos a * 2 ^ (- e')).
  { unfold m'. destruct (- e') as [|k|k] eqn:Ek.
    - change (2 ^ 0) with 1. lia.
    - now rewrite Z.shiftl_mul_pow2 by lia.
    - lia. }
  assert (Hpow : 0 < 2 ^ (- e')) by (apply Z.pow_pos_nonneg; lia).
  assert (Hq : 2 ^ (- e') <= m' / Zpos c).
  { apply Z.div_le_lower_bound; [lia|].
    rewrite Hm. apply Z.mul_le_mono_nonneg_r; lia. }
  unfold Z.div in Hq.
  destruct (Z.div_eucl m' (Zpos c)) as [q r].
  split; lia.
Qed.

Lemma float_value_at_least_one (m : positive) (e : Z) :
  at_least_one (Zpos m) e -> (1 <= float_value false m e)%Q.
Proof.
  intros (H1 & H2). unfold float_value. destruct e as [|p|p].
  - unfold Qle. cbn. lia.
  - unfold Qle. cbn [Qnum Qden inject_Z].
    pose proof (Z.pow_pos_nonneg 2 (Zpos p)). nia.
  - unfold Qle. cbn [Qnum Qden]. cbn [Z.opp] in H2.
    rewrite Pos2Z.inj_pow. lia.
Qed.

Lemma float_value_negative (m : positive) (e : Z) :
  (float_value true m e <= 0)%Q.
Proof.
  unfold float_value. destruct e as [|p|p]; unfold Qle; cbn [Qnum Qden inject_Z].
  - lia.
  - pose proof (Z.pow_pos_nonneg 2 (Zpos p)). nia.
  - lia.
Qed.

(** A true division of a number at least as large as the divisor returns at
    least 1. *)
Lemma true_divide_ge_1 (x : Q) (d : positive) (e : Q) :
  (inject_Z (Zpos d) <= x)%Q -> true_divide x d = Ok e -> (1 <= e)%Q.
Proof.
  destruct x as [a b]. unfold Qle. cbn [Qnum Qden inject_Z].
  intros Hx. unfold true_divide. cbn [Qnum Qden].
  destruct a as [|a|a]; try lia.
  cbn [raw_float SFdiv xorb].
  pose proof (div_core_at_least_one a (d * b)) as Hc.
  destruct (SFdiv_core_binary 53 1024 (Zpos a) 0 (Zpos (d * b)) 0)
    as [[q ez] l].
  assert (Hq : at_least_one q ez) by (apply Hc; lia).
  pose proof (binary_round_aux_at_least_one false q ez l Hq) as Hr.
  destruct (binary_round_aux 53 1024 false q ez l) as [s|s| |s m e'];
    try contradiction; try discriminate.
  destruct Hr as (-> & Hm). intros E. injection E as <-.
  now apply float_value_at_least_one.
Qed.

(** A true division of a number that is not positive returns a number that
    is not positive. *)
Lemma true_divide_nonpos (x : Q) (d : positive) (e : Q) :
  (x <= 0)%Q -> true_divide x d = Ok e -> (e <= 0)%Q.
Proof.
  destruct x as [a b]. unfold Qle. cbn [Qnum Qden].
  intros Hx. unfold true_divide. cbn [Qnum Qden].
  destruct a as [|a|a]; try lia.
  - cbn. intros E. injection E as <-. apply Qle_refl.
  - cbn [raw_float SFdiv xorb].
    destruct (SFdiv_core_binary 53 1024 (Zpos a) 0 (Zpos (d * b)) 0)
      as [[q ez] l].
    pose proof (binary_round_aux_sign true q ez l) as Hs.
    destruct (binary_round_aux 53 1024 true q ez l) as [s|s| |s m e'];
      try discriminate.
    + intros E. injection E as <-. apply Qle_refl.
    + subst s. intros E. injection E as <-. apply float_value_negative.
Qed.

(** The quotients of line 46 at work: [30 / 100] and [70 / 100] are the
    [float]s [0.3] and [0.7], the one below 3/10 and the other below 7/10 (a
    draw of the [float] [0.7] is not below [70 / 100]); [100 / 100] is 1;
    [10 ** 309 / 100] is a [float] although [10 ** 309] is beyond them; and
    [10 ** 400 / 100] raises. *)
Lemma quotients_of_line_46 :
  eve_rate_of (mkParams None None None None)
  = Ok (5404319552844595 # 18014398509481984)
  /\ eve_rate_of (mkParams None None (Some 70%Q) None)
     = Ok (6305039478318694 # 9007199254740992)
  /\ (5404319552844595 # 18014398509481984 < 3 # 10)%Q
  /\ (6305039478318694 # 9007199254740992 < 7 # 10)%Q
  /\ Qltb (6305039478318694 # 9007199254740992)
          (6305039478318694 # 9007199254740992) = false
  /\ (exists e : Q,
        eve_rate_of (mkParams None None (Some 100%Q) None) = Ok e
        /\ (e == 1)%Q)
  /\ (exists e : Q,
        eve_rate_of (mkParams None None (Some (inject_Z (10 ^ 309))) None)
        = Ok e)
  /\ eve_rate_of (mkParams None None (Some (inject_Z (10 ^ 400))) None)
     = Raise OverflowError.
Proof.
  split; [vm_compute; reflexivity|].
  split; [vm_compute; reflexivity|].
  split; [reflexivity|]. split; [reflexivity|]. split; [reflexivity|].
  split; [eexists; split; [vm_compute; reflexivity | reflexivity]|].
  split; [eexists; vm_compute; reflexivity|].
  vm_compute. reflexivity.
Qed.

(** ** Lists *)

Lemma basis_eqb_eq (a b : basis) : basis_eqb a b = true <-> a = b.
Proof. destruct a, b; simpl; split; congruence. Qed.

Lemma basis_eqb_refl (a : basis) : basis_eqb a a = true.
Proof. now destruct a. Qed.

Lemma getitem_nth {A : Type} (l : list A) (i : nat) (d : A) :
  (i < length l)%nat -> getitem l i = Ok (nth i l d).
Proof.
  intros Hi. unfold getitem.
  now rewrite (nth_error_nth' l d Hi).
Qed.

Lemma filter_split_length {A : Type} (p : A -> bool) (l : list A) :
  (length (filter p l) + length (filter (fun x => negb (p x)) l))%nat
  = length l.
Proof.
  induction l as [|x l IH]; simpl; [reflexivity|].
  destruct (p x); simpl; lia.
Qed.

Lemma sum_bools_from (ms : list bool) (acc : Z) :
  fold_left (fun a (m : bool) => if m then a + 1 else a) ms acc
  = acc + Z.of_nat (length (filter (fun m => m) ms)).
Proof.
  revert acc. induction ms as [|m ms IH]; intros acc; simpl; [lia|].
  rewrite IH. destruct m; simpl; lia.
Qed.

Lemma sum_bools_count (ms : list bool) :
  sum_bools ms = Z.of_nat (length (filter (fun m => m) ms)).
Proof. unfold sum_bools. now rewrite sum_bools_from. Qed.

Lemma compare_bases_length (abases bbases : list basis) :
  length (compare_bases abases bbases)
  = Nat.min (length abases) (length bbases).
Proof. unfold compare_bases. now rewrite length_map, length_combine. Qed.

Lemma compare_bases_nth (abases bbases : list basis) (i : nat) :
  (i < length abases)%nat -> (i < length bbases)%nat ->
  nth_error (compare_bases abases bbases) i
  = Some (basis_eqb (nth i abases BasisZ) (nth i bbases BasisZ)).
Proof.
  revert bbases i.
  induction abases as [|a abases IH]; intros [|b bbases] [|i]; simpl;
    try lia; intros Ha Hb.
  - reflexivity.
  - apply IH; lia.
Qed.

(** The comparison list is the list of the [basesMatch] of the records. *)
Lemma compare_bases_records (abits : list Z) (abases : list basis)
    (bbits : list Z) (bbases : list basis) :
  length abases = length abits -> length bbases = length abits ->
  compare_bases abases bbases
  = map Spec.basesMatch (Spec.records abits abases bbits bbases).
Proof.
  intros Ha Hb.
  apply nth_error_ext. intros i.
  unfold Spec.records, Spec.records_from.
  rewrite !nth_error_map.
  destruct (Nat.lt_ge_cases i (length abits)) as [Hi|Hi].
  - rewrite compare_bases_nth by lia.
    rewrite (nth_error_nth' _ 0%nat) by (rewrite length_seq; exact Hi).
    rewrite seq_nth by exact Hi. reflexivity.
  - rewrite (proj2 (nth_error_None _ _)) by (rewrite compare_bases_length; lia).
    rewrite (proj2 (nth_error_None _ _)) by (rewrite length_seq; lia).
    reflexivity.
Qed.

(** ** The extraction loop against the specification's sifting *)

Section Sifting.

Variables (abits : list Z) (abases : list basis).
Variables (bbits : list Z) (bbases : list basis).

Local Abbreviation recs := (Spec.records_from abits abases bbits bbases).

Lemma records_from_S (i k : nat) :
  recs i (S k) = Spec.record_at abits abases bbits bbases i :: recs (S i) k.
Proof. reflexivity. Qed.

Lemma sift_loop_records (k i : nat) (st : sifting) :
  (i + k <= length abits)%nat -> (i + k <= length bbits)%nat ->
  sift_loop abits bbits (map Spec.basesMatch (recs i k)) i st
  = Ok (mkSifting (key st ++ Spec.finalKey (recs i k))
                  (matching_count st + Spec.siftedCount (recs i k))
                  (error_count st + Spec.errorCount (recs i k))).
Proof.
  revert i st. induction k as [|k IH]; intros i st Ha Hb.
  - simpl. unfold Spec.finalKey, Spec.siftedCount, Spec.errorCount. simpl.
    rewrite app_nil_r, !Z.add_0_r. now destruct st.
  - rewrite records_from_S. cbn [map sift_loop].
    unfold sift_step.
    set (r := Spec.record_at abits abases bbits bbases i).
    assert (Hag : Spec.agree r = (nth i abits 0 =? nth i bbits 0))
      by reflexivity.
    assert (Hbit : Spec.aliceBit r = nth i abits 0) by reflexivity.
    unfold Spec.finalKey, Spec.siftedCount, Spec.errorCount, Spec.sifted.
    cbn [filter].
    destruct (Spec.basesMatch r) eqn:Hm.
    + rewrite (getitem_nth abits i 0) by lia.
      rewrite (getitem_nth bbits i 0) by lia.
      cbn [obind filter]. rewrite Hag.
      destruct (nth i abits 0 =? nth i bbits 0) eqn:He;
        cbn [obind negb filter map length];
        rewrite IH by lia; cbn [key matching_count error_count];
        unfold Spec.finalKey, Spec.siftedCount, Spec.errorCount, Spec.sifted.
      * rewrite <- app_assoc, Hbit. cbn [app]. f_equal. f_equal; lia.
      * f_equal. f_equal; lia.
    + cbn [obind]. rewrite IH by lia. reflexivity.
Qed.

Lemma correct_loop_records (k i : nat) (acc : Z) :
  (i + k <= length abits)%nat -> (i + k <= length bbits)%nat ->
  correct_loop abits bbits (map Spec.basesMatch (recs i k)) i acc
  = Ok (acc + Z.of_nat (length (Spec.finalKey (recs i k)))).
Proof.
  revert i acc. induction k as [|k IH]; intros i acc Ha Hb.
  - simpl. now rewrite Z.add_0_r.
  - rewrite records_from_S. cbn [map correct_loop].
    set (r := Spec.record_at abits abases bbits bbases i).
    assert (Hag : Spec.agree r = (nth i abits 0 =? nth i bbits 0))
      by reflexivity.
    unfold Spec.finalKey, Spec.sifted. cbn [filter].
    destruct (Spec.basesMatch r) eqn:Hm.
    + rewrite (getitem_nth abits i 0) by lia.
      rewrite (getitem_nth bbits i 0) by lia.
      cbn [obind filter]. rewrite Hag.
      rewrite IH by lia. unfold Spec.finalKey, Spec.sifted.
      destruct (nth i abits 0 =? nth i bbits 0); cbn [map length];
        f_equal; lia.
    + rewrite IH by lia. reflexivity.
Qed.

End Sifting.

Lemma count_true_map {A : Type} (p : A -> bool) (l : list A) :
  length (filter (fun m : bool => m) (map p l)) = length (filter p l).
Proof.
  induction l as [|x l IH]; simpl; [reflexivity|].
  destruct (p x); simpl; now rewrite IH.
Qed.

Section Processor.

Variables (abits : list Z) (abases : list basis).
Variables (bbits : list Z) (bbases : list basis).
Hypothesis len_abases : length abases = length abits.
Hypothesis len_bbits : length bbits = length abits.
Hypothesis len_bbases : length bbases = length abits.

Local Abbreviation rs := (Spec.records abits abases bbits bbases).

Lemma sift_records :
  sift abits bbits (compare_bases abases bbases)
  = Ok (mkSifting (Spec.finalKey rs) (Spec.siftedCount rs)
                  (Spec.errorCount rs)).
Proof.
  rewrite (compare_bases_records abits abases bbits bbases
             len_abases len_bbases).
  unfold sift, Spec.records.
  rewrite sift_loop_records by lia.
  reflexivity.
Qed.

Lemma sum_bools_records :
  sum_bools (compare_bases abases bbases) = Spec.siftedCount rs.
Proof.
  rewrite (compare_bases_records abits abases bbits bbases
             len_abases len_bbases).
  rewrite sum_bools_count, count_true_map. reflexivity.
Qed.

Lemma calculate_fidelity_records :
  _calculate_fidelity abits bbits (compare_bases abases bbases)
  = Ok (fidelity_of rs).
Proof.
  unfold _calculate_fidelity, fidelity_of.
  rewrite sum_bools_records.
  destruct (Spec.siftedCount rs =? 0); [reflexivity|].
  rewrite (compare_bases_records abits abases bbits bbases
             len_abases len_bbases).
  unfold Spec.records.
  rewrite correct_loop_records by lia.
  reflexivity.
Qed.

Lemma error_rate_records :
  error_rate_of
    (mkSifting (Spec.finalKey rs) (Spec.siftedCount rs) (Spec.errorCount rs))
  = Spec.errorRate rs.
Proof.
  clear len_abases len_bbits len_bbases.
  unfold error_rate_of, Spec.errorRate. cbn [matching_count error_count].
  assert (0 <= Spec.siftedCount rs) by (unfold Spec.siftedCount; lia).
  destruct (Z.ltb_spec 0 (Spec.siftedCount rs)),
           (Z.eqb_spec (Spec.siftedCount rs) 0); try lia; reflexivity.
Qed.

(** The result processor on the lists of a transmission of at least one
    photon. *)
Lemma process_results_records (ebits : list (option Z))
    (ebases : list (option basis)) (eints : list bool) (inc_eve : bool) :
  abits <> [] ->
  _process_results abits abases bbits bbases ebits ebases eints inc_eve
  = Ok (mkBB84Result abits abases bbits bbases ebits ebases eints
          (compare_bases abases bbases) (Spec.finalKey rs) (Spec.errorRate rs)
          inc_eve
          (inject_Z (Z.of_nat (length (Spec.finalKey rs)))
           / inject_Z (Z.of_nat (length abits)))%Q
          (fidelity_of rs)).
Proof.
  intros Hne. unfold _process_results.
  rewrite sift_records. cbn [obind key].
  unfold efficiency_of.
  destruct (Z.eqb_spec (Z.of_nat (length abits)) 0) as [E|E].
  - destruct abits; [congruence | simpl in E; lia].
  - cbn [obind]. rewrite calculate_fidelity_records. cbn [obind].
    now rewrite error_rate_records.
Qed.

(** ... and on the lists of a transmission of no photon. *)
Lemma process_results_empty (ebits : list (option Z))
    (ebases : list (option basis)) (eints : list bool) (inc_eve : bool) :
  abits = [] ->
  _process_results abits abases bbits bbases ebits ebases eints inc_eve
  = Raise ZeroDivisionError.
Proof.
  intros E. unfold _process_results.
  rewrite sift_records. cbn [obind key].
  unfold efficiency_of. rewrite E. reflexivity.
Qed.

End Processor.

(** ** Shape of a transmission *)

Lemma draws_length {W A : Type} (f : Rand W A) (n : nat) (w : W) :
  length (fst (draws f n w)) = n.
Proof.
  revert w. induction n as [|n IH]; intros w; [reflexivity|].
  cbn [draws]. unfold bind, ret.
  destruct (f w) as [x w1]. specialize (IH w1).
  destruct (draws f n w1) as [xs w2]. simpl in *. now rewrite IH.
Qed.

Section Shape.

Context (H : Host).

Lemma photon_loop_length (body : nat -> Rand (world H) photon)
    (idx : list nat) (l : log) (w : world H) (k : nat) :
  length (log_bob_bits l) = k ->
  length (log_eve_bits l) = k ->
  length (log_eve_bases l) = k ->
  length (log_eve_interceptions l) = k ->
  let l' := fst (photon_loop H body idx l w) in
  length (log_bob_bits l') = (k + length idx)%nat /\
  length (log_eve_bits l') = (k + length idx)%nat /\
  length (log_eve_bases l') = (k + length idx)%nat /\
  length (log_eve_interceptions l') = (k + length idx)%nat.
Proof.
  revert l w k. induction idx as [|i idx IH]; intros l w k H1 H2 H3 H4.
  - simpl. rewrite Nat.add_0_r. auto.
  - cbn [photon_loop]. unfold bind. destruct (body i w) as [p w1].
    cbn [length]. rewrite <- Nat.add_succ_comm.
    apply IH; unfold append; cbn [log_bob_bits log_eve_bits log_eve_bases
      log_eve_interceptions]; rewrite length_app; simpl; lia.
Qed.

Lemma transmit_well_formed
    (body : list Z -> list basis -> list basis -> nat -> Rand (world H) photon)
    (num_qubits : Z) (w : world H) :
  well_formed (Z.to_nat num_qubits) (fst (transmit H body num_qubits w)).
Proof.
  unfold transmit, bind, ret.
  pose proof (draws_length (randint H) (Z.to_nat num_qubits) w) as Ha.
  destruct (draws (randint H) (Z.to_nat num_qubits) w) as [abits w1].
  pose proof (draws_length (choice H) (Z.to_nat num_qubits) w1) as Hb.
  destruct (draws (choice H) (Z.to_nat num_qubits) w1) as [abases w2].
  pose proof (draws_length (choice H) (Z.to_nat num_qubits) w2) as Hc.
  destruct (draws (choice H) (Z.to_nat num_qubits) w2) as [bbases w3].
  pose proof (photon_loop_length (body abits abases bbases)
                (range num_qubits) empty_log w3 0 eq_refl eq_refl eq_refl
                eq_refl) as Hl.
  destruct (photon_loop H (body abits abases bbases) (range num_qubits)
              empty_log w3) as [l w4].
  unfold range in Hl. rewrite length_seq in Hl. simpl in *.
  unfold well_formed. simpl. tauto.
Qed.

Lemma transmission_with_well_formed (p : params) (e : Q) (w : world H) :
  well_formed (Z.to_nat (get (numQubits p) 20))
              (fst (transmission_with H p e w)).
Proof.
  unfold transmission_with.
  destruct (QISKIT_AVAILABLE H && (get (numQubits p) 20 <=? 50));
    apply transmit_well_formed.
Qed.

(** Past line 46, [simulate] is the result processor on the lists of the
    selected backend. *)
Lemma simulate_with_process (p : params) (e : Q) (w : world H) :
  simulate_with H p e w
  = (process (get (includeEve p) false) (fst (transmission_with H p e w)),
     snd (transmission_with H p e w)).
Proof.
  unfold simulate_with, transmission_with, _quantum_simulation,
    _classical_simulation, bind, ret.
  destruct (QISKIT_AVAILABLE H && (get (numQubits p) 20 <=? 50)).
  - now destruct (quantum_transmission H _ _ _ w).
  - now destruct (classical_transmission H _ _ _ _ w).
Qed.

(** When line 46 returns, [simulate] goes on with its quotient ... *)
Lemma simulate_returns (p : params) (e : Q) (w : world H) :
  eve_rate_of p = Ok e ->
  simulate H p w = simulate_with H p e w
  /\ simulate_transmission H p w
     = (Ok (fst (transmission_with H p e w)),
        snd (transmission_with H p e w)).
Proof.
  intros E. unfold simulate, simulate_with, simulate_transmission.
  rewrite E. split; [reflexivity|].
  unfold bind, ret. now destruct (transmission_with H p e w).
Qed.

(** ... and when it raises, so does [simulate], and nothing is drawn. *)
Lemma simulate_raises (p : params) (e : exn) (w : world H) :
  eve_rate_of p = Raise e ->
  simulate H p w = (Raise e, w)
  /\ simulate_transmission H p w = (Raise e, w).
Proof.
  intros E. unfold simulate, simulate_transmission.
  rewrite E. split; reflexivity.
Qed.

End Shape.

(** ** The result of a well-formed transmission *)

Lemma process_some (inc_eve : bool) (t : transmission) (n : nat) :
  well_formed n t -> n <> 0%nat ->
  process inc_eve t = Ok (result_of inc_eve t).
Proof.
  intros (Ha & Hb & Hc & Hd & _) Hn. unfold process, result_of, records_of.
  apply process_results_records; try congruence.
  intros E. rewrite E in Ha. simpl in Ha. congruence.
Qed.

Lemma process_none (inc_eve : bool) (t : transmission) :
  well_formed 0 t -> process inc_eve t = Raise ZeroDivisionError.
Proof.
  intros (Ha & Hb & Hc & Hd & _). unfold process.
  apply process_results_empty; try congruence.
  now apply length_zero_iff_nil.
Qed.

Section Runs.

Context (H : Host).

Lemma simulate_some (p : params) (e : Q) (w : world H) :
  1 <= get (numQubits p) 20 ->
  fst (simulate_with H p e w)
  = Ok (result_of (get (includeEve p) false)
                  (fst (transmission_with H p e w))).
Proof.
  intros Hn. rewrite simulate_with_process. cbn [fst].
  apply (process_some _ _ (Z.to_nat (get (numQubits p) 20))).
  - apply transmission_with_well_formed.
  - lia.
Qed.

Lemma simulate_none (p : params) (e : Q) (w : world H) :
  get (numQubits p) 20 <= 0 ->
  fst (simulate_with H p e w) = Raise ZeroDivisionError.
Proof.
  intros Hn. rewrite simulate_with_process. cbn [fst].
  apply process_none.
  replace 0%nat with (Z.to_nat (get (numQubits p) 20)) by lia.
  apply transmission_with_well_formed.
Qed.

End Runs.

Lemma sifted_count_key_errors (rs : list Spec.PhotonRecord) :
  Z.of_nat (length (Spec.finalKey rs)) + Spec.errorCount rs
  = Spec.siftedCount rs.
Proof.
  unfold Spec.finalKey, Spec.errorCount, Spec.siftedCount.
  rewrite length_map.
  pose proof (filter_split_length Spec.agree (Spec.sifted rs)). lia.
Qed.

Lemma sifted_count_le (rs : list Spec.PhotonRecord) :
  Spec.siftedCount rs <= Z.of_nat (length rs).
Proof.
  unfold Spec.siftedCount, Spec.sifted.
  pose proof (filter_length_le Spec.basesMatch rs). lia.
Qed.

Lemma records_length (abits : list Z) (abases : list basis) (bbits : list Z)
    (bbases : list basis) :
  length (Spec.records abits abases bbits bbases) = length abits.
Proof.
  unfold Spec.records, Spec.records_from. now rewrite length_map, length_seq.
Qed.

Lemma count_occ_true_filter (ms : list bool) :
  count_occ bool_dec ms true = length (filter (fun m => m) ms).
Proof.
  induction ms as [|m ms IH]; [reflexivity|].
  destruct m; simpl; now rewrite IH.
Qed.

Lemma count_matching (t : transmission) (n : nat) :
  well_formed n t ->
  Z.of_nat (count_occ bool_dec
              (compare_bases (tx_alice_bases t) (tx_bob_bases t)) true)
  = Spec.siftedCount (records_of t).
Proof.
  intros (Ha & Hb & Hc & Hd & _).
  rewrite count_occ_true_filter, <- sum_bools_count.
  unfold records_of.
  apply sum_bools_records; congruence.
Qed.

(** ** The claims *)

(** The scenario of the specification: four photons, no Eve, no noise. *)
Example scenario_four_photons :
  fst (simulate Script.Classical
         (mkParams (Some 4) (Some false) None (Some 0%Q))
         [0; 3 # 4; 0; 3 # 4; 0; 0; 3 # 4; 3 # 4; 0; 3 # 4; 3 # 4; 0;
          1 # 2; 1 # 4; 1 # 2; 3 # 4]%Q)
  = Ok (mkBB84Result [0; 1; 0; 1] [BasisZ; BasisZ; BasisX; BasisX]
          [0; 0; 0; 1] [BasisZ; BasisX; BasisX; BasisZ]
          [None; None; None; None] [None; None; None; None]
          [false; false; false; false] [true; false; true; false]
          [0; 0] (0 # 2) false (2 # 4) (2 # 2)).
Proof. reflexivity. Qed.

(** C1.  In every run of [simulate] that gets past the quotient of line 46
    (a run that does not get past it builds no list and raises what the
    quotient raises), on the lists the selected backend built:
    the comparison list holds at every index [i] whether Alice's and Bob's
    bases are equal; the extraction loop ends with the key made of Alice's
    bits of exactly the matching-basis records on which both bits agree, with
    as many errors as there are matching-basis records on which they differ
    (none of them in the key), and with the matching-basis records counted;
    the error rate is the number of errors over the number of matching-basis
    records, and 0 when there is none.  A returned result carries that
    comparison list, that key and that error rate. *)
Theorem result_processor_sifts (H : Host) (p : params) (w : world H) :
  let n := get (numQubits p) 20 in
  match fst (simulate_transmission H p w) with
  | Raise e => fst (simulate H p w) = Raise e
  | Ok t =>
      let ms := compare_bases (tx_alice_bases t) (tx_bob_bases t) in
      let rs := records_of t in
      (forall i : nat, (i < Z.to_nat n)%nat ->
         nth_error ms i
         = Some (basis_eqb (nth i (tx_alice_bases t) BasisZ)
                           (nth i (tx_bob_bases t) BasisZ)))
      /\ length ms = Z.to_nat n
      /\ (exists st : sifting,
            sift (tx_alice_bits t) (log_bob_bits (tx_log t)) ms = Ok st
            /\ key st = Spec.finalKey rs
            /\ error_count st = Spec.errorCount rs
            /\ matching_count st = Spec.siftedCount rs
            /\ error_rate_of st = Spec.errorRate rs)
      /\ match fst (simulate H p w) with
         | Ok r => matching_bases r = ms
                   /\ final_key r = Spec.finalKey rs
                   /\ error_rate r = Spec.errorRate rs
         | Raise _ => n <= 0
         end
  end.
Proof.
  intros n.
  destruct (eve_rate_of p) as [e|e] eqn:Erate.
  2:{ destruct (simulate_raises H p e w Erate) as (-> & ->). reflexivity. }
  destruct (simulate_returns H p e w Erate) as (-> & ->).
  cbn [fst].
  set (t := fst (transmission_with H p e w)).
  set (ms := compare_bases (tx_alice_bases t) (tx_bob_bases t)).
  set (rs := records_of t).
  pose proof (transmission_with_well_formed H p e w) as Hwf.
  fold n t in Hwf. destruct Hwf as (Ha & Hb & Hc & Hd & Hrest).
  split; [|split; [|split]].
  - intros i Hi. apply compare_bases_nth; lia.
  - unfold ms. rewrite compare_bases_length. lia.
  - exists (mkSifting (Spec.finalKey rs) (Spec.siftedCount rs)
                      (Spec.errorCount rs)).
    split.
    + apply sift_records; congruence.
    + cbn [key error_count matching_count].
      split; [reflexivity|]. split; [reflexivity|]. split; [reflexivity|].
      apply error_rate_records; congruence.
  - destruct (Z.le_gt_cases n 0) as [Hn|Hn].
    + rewrite simulate_none by exact Hn. exact Hn.
    + rewrite simulate_some by (fold n; lia). cbn. auto.
Qed.

(** C2, as it stands, fails: a run of one photon whose bases differ has no
    sifted record, so both the error rate and the fidelity are 0. *)
Lemma fidelity_is_not_one_minus_error_rate :
  exists r : BB84Result,
    fst (simulate Script.Classical (mkParams (Some 1) None None None)
           [0; 0; 3 # 4; 0]%Q) = Ok r
    /\ ~ (quantum_fidelity r == 1 - error_rate r)%Q.
Proof.
  eexists. split; [vm_compute; reflexivity|].
  cbn. intros E. discriminate E.
Qed.

(** C2, amended.  In every run that returns a result: if at least one basis
    matches, the fidelity is 1 minus the error rate (as exact quotients);
    if none matches, the fidelity and the error rate are both 0.  A run
    returns a result unless it has no photon or the quotient of line 46
    raises. *)
Theorem fidelity_one_minus_error_rate (H : Host) (p : params) (w : world H) :
  match fst (simulate H p w) with
  | Ok r =>
      (0 < count_occ bool_dec (matching_bases r) true)%nat /\
      (quantum_fidelity r == 1 - error_rate r)%Q
      \/
      count_occ bool_dec (matching_bases r) true = 0%nat /\
      (quantum_fidelity r == 0)%Q /\ (error_rate r == 0)%Q
  | Raise e => get (numQubits p) 20 <= 0 \/ eve_rate_of p = Raise e
  end.
Proof.
  destruct (eve_rate_of p) as [rate|x] eqn:Erate.
  2:{ destruct (simulate_raises H p x w Erate) as (-> & _).
      right. reflexivity. }
  destruct (simulate_returns H p rate w Erate) as (-> & _).
  destruct (Z.le_gt_cases (get (numQubits p) 20) 0) as [Hn|Hn].
  { rewrite simulate_none by exact Hn. left. exact Hn. }
  rewrite simulate_some by lia.
  set (t := fst (transmission_with H p rate w)).
  pose proof (count_matching t _ (transmission_with_well_formed H p rate w))
    as Hc.
  fold t in Hc.
  cbn [matching_bases quantum_fidelity error_rate result_of].
  pose proof (sifted_count_key_errors (records_of t)) as Hsum.
  unfold fidelity_of, Spec.errorRate.
  set (sc := Spec.siftedCount (records_of t)) in *.
  destruct (Z.eqb_spec sc 0) as [E|E].
  - right. split; [lia|]. split; reflexivity.
  - left. split; [lia|].
    rewrite <- Hsum.
    set (k := Z.of_nat (length (Spec.finalKey (records_of t)))) in *.
    set (e := Spec.errorCount (records_of t)) in *.
    rewrite inject_Z_plus.
    assert (Hnz : ~ (inject_Z k + inject_Z e == 0)%Q).
    { rewrite <- inject_Z_plus. intros E0.
      unfold Qeq in E0. cbn [Qnum Qden inject_Z] in E0. lia. }
    field. exact Hnz.
Qed.

(** A run with three sifted photons, one of them in error: the exact
    quotients are 1/3 and 2/3 ... *)
Lemma one_error_in_three :
  exists r : BB84Result,
    fst (simulate Script.Classical
           (mkParams (Some 3) None None (Some (1 # 2)%Q))
           [0; 0; 0; 0; 0; 0; 0; 0; 0; 0; 3 # 4; 3 # 4]%Q) = Ok r
    /\ (error_rate r == 1 # 3)%Q /\ (quantum_fidelity r == 2 # 3)%Q.
Proof. eexists. split; [vm_compute; reflexivity|]. split; reflexivity. Qed.

(** ... and as binary64 numbers [2 / 3] is one unit in the last place below
    [1 - 1 / 3]: the identity of C2 is one of exact quotients, not of the
    floats a run returns. *)
Lemma double_two_thirds :
  Double.truediv 2 3 = S754_finite false 6004799503160661 (-53)
  /\ Double.one_minus (Double.truediv 1 3)
     = S754_finite false 6004799503160662 (-53).
Proof. split; vm_compute; reflexivity. Qed.

(** A transmission of no photon: nothing is drawn, every list is empty. *)
Lemma transmit_nonpositive (H : Host)
    (body : list Z -> list basis -> list basis -> nat -> Rand (world H) photon)
    (num_qubits : Z) (w : world H) :
  num_qubits <= 0 ->
  transmit H body num_qubits w = (mkTransmission [] [] [] empty_log, w).
Proof.
  intros Hn. unfold transmit, range.
  replace (Z.to_nat num_qubits) with 0%nat by lia.
  reflexivity.
Qed.

Lemma transmission_with_nonpositive (H : Host) (p : params) (e : Q)
    (w : world H) :
  get (numQubits p) 20 <= 0 ->
  transmission_with H p e w = (mkTransmission [] [] [] empty_log, w).
Proof.
  intros Hn. unfold transmission_with.
  destruct (QISKIT_AVAILABLE H && (get (numQubits p) 20 <=? 50));
    now apply transmit_nonpositive.
Qed.

Lemma simulate_with_nonpositive (H : Host) (p : params) (e : Q)
    (w : world H) :
  get (numQubits p) 20 <= 0 ->
  simulate_with H p e w = (Raise ZeroDivisionError, w).
Proof.
  intros Hn. rewrite simulate_with_process.
  rewrite transmission_with_nonpositive by exact Hn.
  reflexivity.
Qed.

(** C3, on the code: with [numQubits == 0] the call returns no result, on
    every host, whatever the other parameters, and leaves the random state
    as it found it: it raises [ZeroDivisionError] (the quotient
    [len(final_key) / len(alice_bits)] has no guard), unless the quotient of
    line 46 has raised [OverflowError] before. *)
Theorem simulate_zero_qubits_raises (H : Host) (inc_eve : option bool)
    (rate noise : option Q) (w : world H) :
  simulate H (mkParams (Some 0) inc_eve rate noise) w
  = (match eve_rate_of (mkParams (Some 0) inc_eve rate noise) with
     | Ok _ => Raise ZeroDivisionError
     | Raise e => Raise e
     end, w).
Proof.
  set (p := mkParams (Some 0) inc_eve rate noise).
  destruct (eve_rate_of p) as [e|x] eqn:Erate.
  - destruct (simulate_returns H p e w Erate) as (-> & _).
    apply simulate_with_nonpositive. simpl. lia.
  - destruct (simulate_raises H p x w Erate) as (-> & _). reflexivity.
Qed.

(** With a rate in the range of the floats the exception of C3 is the
    [ZeroDivisionError]; with [eveInterceptionRate = 10 ** 400] it is the
    [OverflowError] of line 46. *)
Lemma zero_qubits_exceptions (H : Host) (w : world H) :
  simulate H (mkParams (Some 0) None None None) w
  = (Raise ZeroDivisionError, w)
  /\ simulate H (mkParams (Some 0) None (Some (inject_Z (10 ^ 400))) None) w
     = (Raise OverflowError, w).
Proof.
  split.
  - apply (simulate_with_nonpositive H (mkParams (Some 0) None None None)).
    simpl. lia.
  - apply simulate_raises. vm_compute. reflexivity.
Qed.

(** C4, as it stands, fails: with [numQubits == -1] the exception that
    reaches the caller is a [ZeroDivisionError], not a [ValidationError]. *)
Lemma negative_qubits_no_validation_error :
  fst (simulate Script.Classical (mkParams (Some (-1)) None None None) [])
  = Raise ZeroDivisionError
  /\ fst (simulate Script.Classical (mkParams (Some (-1)) None None None) [])
     <> Raise "ValidationError"%string.
Proof. split; [reflexivity | discriminate]. Qed.

(** C4, amended.  There is no validation of [numQubits] and no
    [ValidationError]: a call with [numQubits < 0] draws nothing, builds
    empty per-photon lists (none at all when the quotient of line 46 raises),
    and has the outcome of the same call with [numQubits == 0]. *)
Theorem simulate_negative_as_zero (H : Host) (n : Z) (inc_eve : option bool)
    (rate noise : option Q) (w : world H) :
  n < 0 ->
  simulate_transmission H (mkParams (Some n) inc_eve rate noise) w
  = (match eve_rate_of (mkParams (Some n) inc_eve rate noise) with
     | Ok _ => Ok (mkTransmission [] [] [] empty_log)
     | Raise e => Raise e
     end, w)
  /\ simulate H (mkParams (Some n) inc_eve rate noise) w
     = simulate H (mkParams (Some 0) inc_eve rate noise) w
  /\ fst (simulate H (mkParams (Some n) inc_eve rate noise) w)
     <> Raise "ValidationError"%string.
Proof.
  intros Hn.
  set (p := mkParams (Some n) inc_eve rate noise).
  set (p0 := mkParams (Some 0) inc_eve rate noise).
  assert (E0 : eve_rate_of p0 = eve_rate_of p) by reflexivity.
  destruct (eve_rate_of p) as [e|x] eqn:Erate.
  - destruct (simulate_returns H p e w Erate) as (-> & ->).
    destruct (simulate_returns H p0 e w E0) as (-> & _).
    rewrite transmission_with_nonpositive by (simpl; lia).
    rewrite !simulate_with_nonpositive by (simpl; lia).
    split; [reflexivity|]. split; [reflexivity|]. discriminate.
  - destruct (simulate_raises H p x w Erate) as (-> & ->).
    destruct (simulate_raises H p0 x w E0) as (-> & _).
    split; [reflexivity|]. split; [reflexivity|].
    cbn [fst]. intros E. injection E as E.
    unfold eve_rate_of, true_divide in Erate.
    destruct (SFdiv _ _ _ _); try discriminate Erate;
      injection Erate as <-; discriminate E.
Qed.

Lemma simulate_negative_as_zero_witness :
  -3 < 0
  /\ simulate Script.Qiskit (mkParams (Some (-3)) (Some true) None None)
       [1 # 2; 1 # 4]%Q
     = simulate Script.Qiskit (mkParams (Some 0) (Some true) None None)
         [1 # 2; 1 # 4]%Q.
Proof.
  split; [lia|].
  apply (simulate_negative_as_zero Script.Qiskit (-3) (Some true) None None
           [1 # 2; 1 # 4]%Q).
  lia.
Defined.

(** C7.  For [numQubits = N >= 0], in a run that gets past the quotient of
    line 46 (a run that does not builds no list and raises what the quotient
    raises), the seven lists the selected backend builds and the comparison
    list all have [N] elements, and they are the eight per-photon sequences
    of the result whenever one is returned (which is the case for
    [N >= 1]). *)
Theorem sequences_have_length_numQubits (H : Host) (p : params)
    (w : world H) :
  let n := get (numQubits p) 20 in
  0 <= n ->
  match fst (simulate_transmission H p w) with
  | Raise e => fst (simulate H p w) = Raise e
  | Ok t =>
      (Z.of_nat (length (tx_alice_bits t)) = n /\
       Z.of_nat (length (tx_alice_bases t)) = n /\
       Z.of_nat (length (log_bob_bits (tx_log t))) = n /\
       Z.of_nat (length (tx_bob_bases t)) = n /\
       Z.of_nat (length (log_eve_bits (tx_log t))) = n /\
       Z.of_nat (length (log_eve_bases (tx_log t))) = n /\
       Z.of_nat (length (log_eve_interceptions (tx_log t))) = n /\
       Z.of_nat (length (compare_bases (tx_alice_bases t) (tx_bob_bases t)))
       = n)
      /\ match fst (simulate H p w) with
         | Ok r =>
             Z.of_nat (length (alice_bits r)) = n /\
             Z.of_nat (length (alice_bases r)) = n /\
             Z.of_nat (length (bob_bits r)) = n /\
             Z.of_nat (length (bob_bases r)) = n /\
             Z.of_nat (length (eve_bits r)) = n /\
             Z.of_nat (length (eve_bases r)) = n /\
             Z.of_nat (length (eve_interceptions r)) = n /\
             Z.of_nat (length (matching_bases r)) = n
         | Raise _ => n = 0
         end
  end.
Proof.
  intros n Hn.
  destruct (eve_rate_of p) as [e|x] eqn:Erate.
  2:{ destruct (simulate_raises H p x w Erate) as (-> & ->). reflexivity. }
  destruct (simulate_returns H p e w Erate) as (-> & ->).
  cbn [fst].
  set (t := fst (transmission_with H p e w)).
  pose proof (transmission_with_well_formed H p e w) as Hwf.
  fold n t in Hwf.
  destruct Hwf as (Ha & Hb & Hc & Hd & He & Hf & Hg).
  assert (Hm : length (compare_bases (tx_alice_bases t) (tx_bob_bases t))
               = Z.to_nat n)
    by (rewrite compare_bases_length; lia).
  assert (Hall :
    Z.of_nat (length (tx_alice_bits t)) = n /\
    Z.of_nat (length (tx_alice_bases t)) = n /\
    Z.of_nat (length (log_bob_bits (tx_log t))) = n /\
    Z.of_nat (length (tx_bob_bases t)) = n /\
    Z.of_nat (length (log_eve_bits (tx_log t))) = n /\
    Z.of_nat (length (log_eve_bases (tx_log t))) = n /\
    Z.of_nat (length (log_eve_interceptions (tx_log t))) = n /\
    Z.of_nat (length (compare_bases (tx_alice_bases t) (tx_bob_bases t))) = n)
    by (repeat split; lia).
  split; [exact Hall|].
  destruct (Z.le_gt_cases n 0) as [Hz|Hz].
  - rewrite simulate_none by exact Hz. lia.
  - rewrite simulate_some by (fold n; lia). exact Hall.
Qed.

Lemma sequences_have_length_numQubits_witness :
  0 <= get (numQubits (mkParams (Some 2) (Some true) (Some 100%Q) None)) 20
  /\ match fst (simulate Script.Classical
                  (mkParams (Some 2) (Some true) (Some 100%Q) None)
                  [0; 3 # 4; 0; 0; 0; 3 # 4; 0; 0; 0; 1 # 2; 0; 3 # 4; 0]%Q)
     with
     | Ok r => Z.of_nat (length (eve_bits r)) = 2
     | Raise _ => False
     end.
Proof.
  split; [simpl; lia|].
  pose proof (sequences_have_length_numQubits Script.Classical
                (mkParams (Some 2) (Some true) (Some 100%Q) None)
                [0; 3 # 4; 0; 0; 0; 3 # 4; 0; 0; 0; 1 # 2; 0; 3 # 4; 0]%Q) as T.
  cbv zeta in T. specialize (T ltac:(simpl; lia)).
  destruct (fst (simulate_transmission Script.Classical _ _)) as [t|e].
  - destruct T as [_ T].
    destruct (fst (simulate Script.Classical _ _)) as [r|e].
    + tauto.
    + discriminate T.
  - vm_compute in T. discriminate T.
Defined.

(** C8.  In every result, the key is no longer than the number of indices
    whose bases match, and that number is at most [numQubits]. *)
Theorem key_within_sifted_within_numQubits (H : Host) (p : params)
    (w : world H) :
  match fst (simulate H p w) with
  | Ok r =>
      (length (final_key r) <= count_occ bool_dec (matching_bases r) true)%nat
      /\ Z.of_nat (count_occ bool_dec (matching_bases r) true)
         <= get (numQubits p) 20
  | Raise e => get (numQubits p) 20 <= 0 \/ eve_rate_of p = Raise e
  end.
Proof.
  destruct (eve_rate_of p) as [rate|x] eqn:Erate.
  2:{ destruct (simulate_raises H p x w Erate) as (-> & _).
      right. reflexivity. }
  destruct (simulate_returns H p rate w Erate) as (-> & _).
  destruct (Z.le_gt_cases (get (numQubits p) 20) 0) as [Hn|Hn].
  { rewrite simulate_none by exact Hn. left. exact Hn. }
  rewrite simulate_some by lia.
  set (t := fst (transmission_with H p rate w)).
  pose proof (transmission_with_well_formed H p rate w) as Hwf. fold t in Hwf.
  pose proof (count_matching t _ Hwf) as Hc.
  cbn [matching_bases final_key result_of].
  pose proof (sifted_count_key_errors (records_of t)) as Hsum.
  pose proof (sifted_count_le (records_of t)) as Hle.
  unfold records_of in Hle at 2. rewrite records_length in Hle.
  destruct Hwf as (Ha & _).
  assert (0 <= Spec.errorCount (records_of t))
    by (unfold Spec.errorCount; lia).
  split; lia.
Qed.

(** ** Rates outside their nominal range *)

Lemma Qltb_lt (a b : Q) : Qltb a b = true <-> (a < b)%Q.
Proof.
  unfold Qltb. rewrite Qlt_alt. destruct (a ?= b)%Q; split; congruence.
Qed.

Lemma Qltb_ext (a b c : Q) :
  ((a < b)%Q <-> (a < c)%Q) -> Qltb a b = Qltb a c.
Proof. intros E. apply eq_true_iff_eq. now rewrite !Qltb_lt. Qed.

(** A rate below 0 gives a quotient that no draw of [[0, 1)] is below, as
    does the rate 0; a rate above 100 gives a quotient that every such draw
    is below, as does the rate 100. *)
Lemma below_rate_clamped (x e : Q) :
  true_divide x 100 = Ok e ->
  exists e' : Q,
    true_divide (clamp 0 100 x) 100 = Ok e'
    /\ forall r : Q, (0 <= r)%Q -> (r < 1)%Q -> Qltb r e' = Qltb r e.
Proof.
  intros E. unfold clamp.
  destruct (Qltb x 0) eqn:E1.
  - apply Qltb_lt in E1.
    assert (He : (e <= 0)%Q)
      by (apply (true_divide_nonpos x 100); [lra | exact E]).
    exists 0%Q. split; [reflexivity|].
    intros r H0 H1. apply Qltb_ext. split; intro; lra.
  - destruct (Qltb 100 x) eqn:E2.
    + apply Qltb_lt in E2.
      assert (He : (1 <= e)%Q).
      { apply (true_divide_ge_1 x 100); [|exact E].
        change (inject_Z 100) with 100%Q. lra. }
      destruct (true_divide 100 100) as [e'|] eqn:E'; [|discriminate E'].
      exists e'. split; [reflexivity|].
      assert (He' : (1 <= e')%Q).
      { apply (true_divide_ge_1 100 100); [|exact E'].
        change (inject_Z 100) with 100%Q. lra. }
      intros r H0 H1. apply Qltb_ext. split; intro; lra.
    + exists e. split; [exact E | reflexivity].
Qed.

Lemma below_noise_clamped (r x : Q) :
  (0 <= r)%Q -> (r < 1)%Q -> Qltb r x = Qltb r (clamp 0 1 x).
Proof.
  intros H0 H1. apply Qltb_ext. unfold clamp.
  destruct (Qltb x 0) eqn:E1.
  - apply Qltb_lt in E1. split; intro; lra.
  - destruct (Qltb 1 x) eqn:E2.
    + apply Qltb_lt in E2. split; intro; lra.
    + reflexivity.
Qed.

(** The scripted hosts draw from [[0, 1)]. *)
Lemma script_next_in_unit (w : list Q) :
  (0 <= fst (Script.next w) /\ fst (Script.next w) < 1)%Q.
Proof.
  destruct w as [|q w]; simpl; [lra|].
  destruct (Qle_bool 0 q) eqn:E0; simpl; [|lra].
  destruct (Qltb q 1) eqn:E1; simpl; [|lra].
  apply Qle_bool_iff in E0. apply Qltb_lt in E1. lra.
Qed.

Lemma script_classical_in_unit : random_in_unit Script.Classical.
Proof. intros w. apply script_next_in_unit. Qed.

Lemma script_qiskit_in_unit : random_in_unit Script.Qiskit.
Proof. intros w. apply script_next_in_unit. Qed.

(** ** Loops that agree photon by photon *)

Lemma bind_ext {W A B : Type} (m m' : Rand W A) (k k' : A -> Rand W B)
    (w : W) :
  m w = m' w -> (forall a w1, k a w1 = k' a w1) -> bind m k w = bind m' k' w.
Proof.
  intros Em Ek. unfold bind. rewrite Em. destruct (m' w) as [a w1]. apply Ek.
Qed.

Section Loops.

Context (H : Host).

Lemma photon_loop_ext (body body' : nat -> Rand (world H) photon) :
  (forall i w, body i w = body' i w) ->
  forall idx l w,
    photon_loop H body idx l w = photon_loop H body' idx l w.
Proof.
  intros E idx. induction idx as [|i idx IH]; intros l w; [reflexivity|].
  cbn [photon_loop]. unfold bind. rewrite E.
  destruct (body' i w) as [ph w1]. apply IH.
Qed.

Lemma transmit_ext
    (body body' : list Z -> list basis -> list basis -> nat
                  -> Rand (world H) photon) :
  (forall abits abases bbases i w,
      body abits abases bbases i w = body' abits abases bbases i w) ->
  forall n w, transmit H body n w = transmit H body' n w.
Proof.
  intros E n w. unfold transmit, bind.
  destruct (draws (randint H) (Z.to_nat n) w) as [abits w1].
  destruct (draws (choice H) (Z.to_nat n) w1) as [abases w2].
  destruct (draws (choice H) (Z.to_nat n) w2) as [bbases w3].
  rewrite (photon_loop_ext _ _ (E abits abases bbases)).
  reflexivity.
Qed.

(** Two rates that no draw of [[0, 1)] tells apart decide alike. *)
Lemma eve_decides_ext (inc_eve : bool) (rate rate' : Q) (w : world H) :
  random_in_unit H ->
  (forall r, (0 <= r)%Q -> (r < 1)%Q -> Qltb r rate = Qltb r rate') ->
  eve_decides H inc_eve rate w = eve_decides H inc_eve rate' w.
Proof.
  intros Hu E. unfold eve_decides. destruct inc_eve; [|reflexivity].
  unfold bind, ret. specialize (Hu w).
  destruct (random H w) as [r w1]. simpl in Hu.
  now rewrite (E r) by tauto.
Qed.

Lemma classical_bob_ext (b : basis) (t_bit : Z) (t_basis : basis)
    (noise noise' : Q) (w : world H) :
  random_in_unit H ->
  (forall r, (0 <= r)%Q -> (r < 1)%Q -> Qltb r noise = Qltb r noise') ->
  classical_bob H b t_bit t_basis noise w
  = classical_bob H b t_bit t_basis noise' w.
Proof.
  intros Hu E. unfold classical_bob.
  destruct (basis_eqb b t_basis); [|reflexivity].
  unfold bind, ret. specialize (Hu w).
  destruct (random H w) as [r w1]. simpl in Hu.
  now rewrite (E r) by tauto.
Qed.

Lemma classical_photon_ext (abits : list Z) (abases bbases : list basis)
    (inc_eve : bool) (rate rate' noise noise' : Q) (i : nat) (w : world H) :
  random_in_unit H ->
  (forall r, (0 <= r)%Q -> (r < 1)%Q -> Qltb r rate = Qltb r rate') ->
  (forall r, (0 <= r)%Q -> (r < 1)%Q -> Qltb r noise = Qltb r noise') ->
  classical_photon H abits abases bbases inc_eve rate noise i w
  = classical_photon H abits abases bbases inc_eve rate' noise' i w.
Proof.
  intros Hu Er En. unfold classical_photon, classical_eve.
  apply bind_ext.
  - apply bind_ext; [now apply eve_decides_ext | reflexivity].
  - intros fw w1. apply bind_ext; [now apply classical_bob_ext | reflexivity].
Qed.

Lemma quantum_photon_ext (abits : list Z) (abases bbases : list basis)
    (inc_eve : bool) (rate rate' : Q) (i : nat) (w : world H) :
  random_in_unit H ->
  (forall r, (0 <= r)%Q -> (r < 1)%Q -> Qltb r rate = Qltb r rate') ->
  quantum_photon H abits abases bbases inc_eve rate i w
  = quantum_photon H abits abases bbases inc_eve rate' i w.
Proof.
  intros Hu Er. unfold quantum_photon, quantum_eve.
  apply bind_ext; [|reflexivity].
  apply bind_ext; [now apply eve_decides_ext | reflexivity].
Qed.

End Loops.

Section WithoutEve.

Context (H : Host).







End WithoutEve.




Section Clamping.

Context (H : Host).
Hypothesis in_unit : random_in_unit H.

Lemma classical_transmission_ext (n : Z) (inc_eve : bool)
    (rate rate' noise noise' : Q) (w : world H) :
  (forall r, (0 <= r)%Q -> (r < 1)%Q -> Qltb r rate = Qltb r rate') ->
  (forall r, (0 <= r)%Q -> (r < 1)%Q -> Qltb r noise = Qltb r noise') ->
  classical_transmission H n inc_eve rate noise w
  = classical_transmission H n inc_eve rate' noise' w.
Proof.
  intros Er En. unfold classical_transmission.
  apply transmit_ext. intros. now apply classical_photon_ext.
Qed.

Lemma quantum_transmission_ext (n : Z) (inc_eve : bool) (rate rate' : Q)
    (w : world H) :
  (forall r, (0 <= r)%Q -> (r < 1)%Q -> Qltb r rate = Qltb r rate') ->
  quantum_transmission H n inc_eve rate w
  = quantum_transmission H n inc_eve rate' w.
Proof.
  intros Er. unfold quantum_transmission.
  apply transmit_ext. intros. now apply quantum_photon_ext.
Qed.

(** The rates are only ever compared with draws of [[0, 1)]: when the
    quotient of line 46 does not raise, clamping them changes no outcome of
    [simulate], and no random state. *)
Lemma simulate_clamped (p : params) (e : Q) (w : world H) :
  eve_rate_of p = Ok e ->
  simulate H (clamp_params p) w = simulate H p w.
Proof.
  intros Erate.
  assert (Er : exists e' : Q,
            eve_rate_of (clamp_params p) = Ok e'
            /\ forall r, (0 <= r)%Q -> (r < 1)%Q -> Qltb r e' = Qltb r e).
  { unfold eve_rate_of, clamp_params in *. cbn [eveInterceptionRate].
    destruct (eveInterceptionRate p) as [x|]; cbn [option_map get] in *.
    - now apply below_rate_clamped.
    - exists e. split; [exact Erate | reflexivity]. }
  destruct Er as (e' & Erate' & Er).
  destruct (simulate_returns H p e w Erate) as (-> & _).
  destruct (simulate_returns H (clamp_params p) e' w Erate') as (-> & _).
  unfold simulate_with, clamp_params, _quantum_simulation,
    _classical_simulation.
  cbn [numQubits includeEve eveInterceptionRate noiseLevel].
  assert (En : forall r, (0 <= r)%Q -> (r < 1)%Q ->
            Qltb r (get (option_map (clamp 0 1) (noiseLevel p))
                      default_noise_level)
            = Qltb r (get (noiseLevel p) default_noise_level)).
  { intros r H0 H1. destruct (noiseLevel p) as [x|]; simpl;
      [symmetry; now apply below_noise_clamped | reflexivity]. }
  destruct (QISKIT_AVAILABLE H && _).
  - apply bind_ext; [now apply quantum_transmission_ext | reflexivity].
  - apply bind_ext; [now apply classical_transmission_ext | reflexivity].
Qed.

End Clamping.

(** With [random.random()] in [[0, 1)], at least one photon and a quotient
    of line 46 that does not raise, [simulate] returns a result whatever
    [eveInterceptionRate] and [noiseLevel] are, and the same call with
    [eveInterceptionRate] clamped to [[0, 100]] and [noiseLevel] clamped to
    [[0, 1]] returns the same result and leaves the same random state. *)
Lemma rates_as_clamped (H : Host) (p : params) (e : Q) (w : world H) :
  random_in_unit H ->
  1 <= get (numQubits p) 20 ->
  eve_rate_of p = Ok e ->
  exists (r : BB84Result) (w' : world H),
    simulate H p w = (Ok r, w')
    /\ simulate H (clamp_params p) w = (Ok r, w').
Proof.
  intros Hu Hn Erate.
  exists (result_of (get (includeEve p) false)
                    (fst (transmission_with H p e w))).
  exists (snd (simulate H p w)).
  rewrite (simulate_clamped H Hu p e w Erate).
  destruct (simulate_returns H p e w Erate) as (-> & _).
  pose proof (simulate_some H p e w Hn) as E.
  destruct (simulate_with H p e w) as [o w']. simpl in E. subst o.
  split; reflexivity.
Qed.

(** An integer rate beyond the range of the floats is the one rate whose
    clamping changes the outcome: the call raises [OverflowError], the call
    with the rate clamped to 100 does not. *)
Lemma overflowing_rate_not_as_clamped :
  fst (simulate Script.Classical
         (mkParams (Some 1) (Some true) (Some (inject_Z (10 ^ 400))) None)
         [0; 0; 0; 0; 0; 0; 0]%Q)
  = Raise OverflowError
  /\ exists r : BB84Result,
       fst (simulate Script.Classical
              (clamp_params
                 (mkParams (Some 1) (Some true)
                    (Some (inject_Z (10 ^ 400))) None))
              [0; 0; 0; 0; 0; 0; 0]%Q)
       = Ok r.
Proof.
  split; [vm_compute; reflexivity|].
  eexists. vm_compute. reflexivity.
Qed.

(** C6, on the code: out-of-range rates are never clamped, and within the
    range of the floats they need not be ([simulate_clamped],
    [rates_as_clamped]); but the call does not complete for every parameter
    set: with [numQubits == 0], [eveInterceptionRate == 150] and
    [noiseLevel == 2] it raises [ZeroDivisionError], as does the call with
    the clamped rates 100 and 1. *)
Theorem out_of_range_rates_zero_qubits_raises :
  fst (simulate Script.Classical
         (mkParams (Some 0) (Some true) (Some 150%Q) (Some 2%Q)) [])
  = Raise ZeroDivisionError
  /\ fst (simulate Script.Classical
            (clamp_params
               (mkParams (Some 0) (Some true) (Some 150%Q) (Some 2%Q))) [])
     = Raise ZeroDivisionError.
Proof. split; reflexivity. Qed.

(** ** The photon of iteration [i] *)

Lemma photon_at_append_last (l : log) (ph : photon) (k : nat) :
  balanced k l -> photon_at (append l ph) k = Some ph.
Proof.
  intros (H1 & H2 & H3 & H4). unfold photon_at, append.
  cbn [log_eve_interceptions log_eve_bits log_eve_bases log_bob_bits].
  rewrite !nth_error_app2 by lia.
  rewrite H1, H2, H3, H4, Nat.sub_diag. simpl. now destruct ph.
Qed.

Lemma photon_at_append_before (l : log) (ph ph' : photon) (j : nat) :
  photon_at l j = Some ph' -> photon_at (append l ph) j = Some ph'.
Proof.
  unfold photon_at, append.
  cbn [log_eve_interceptions log_eve_bits log_eve_bases log_bob_bits].
  destruct (nth_error (log_eve_interceptions l) j) as [e|] eqn:E1;
    [|discriminate].
  destruct (nth_error (log_eve_bits l) j) as [eb|] eqn:E2; [|discriminate].
  destruct (nth_error (log_eve_bases l) j) as [ebs|] eqn:E3; [|discriminate].
  destruct (nth_error (log_bob_bits l) j) as [b|] eqn:E4; [|discriminate].
  intros E.
  assert (L1 : (j < length (log_eve_interceptions l))%nat)
    by (apply nth_error_Some; congruence).
  assert (L2 : (j < length (log_eve_bits l))%nat)
    by (apply nth_error_Some; congruence).
  assert (L3 : (j < length (log_eve_bases l))%nat)
    by (apply nth_error_Some; congruence).
  assert (L4 : (j < length (log_bob_bits l))%nat)
    by (apply nth_error_Some; congruence).
  rewrite !nth_error_app1 by assumption.
  now rewrite E1, E2, E3, E4.
Qed.

Section Iterations.

Context (H : Host).

Lemma photon_loop_app (body : nat -> Rand (world H) photon)
    (idx idx' : list nat) (l : log) (w : world H) :
  photon_loop H body (idx ++ idx') l w
  = photon_loop H body idx' (fst (photon_loop H body idx l w))
      (snd (photon_loop H body idx l w)).
Proof.
  revert l w. induction idx as [|i idx IH]; intros l w; [reflexivity|].
  cbn [app photon_loop]. unfold bind.
  destruct (body i w) as [ph w1]. apply IH.
Qed.

Lemma photon_loop_keeps (body : nat -> Rand (world H) photon)
    (idx : list nat) (l : log) (w : world H) (j : nat) (ph : photon) :
  photon_at l j = Some ph ->
  photon_at (fst (photon_loop H body idx l w)) j = Some ph.
Proof.
  revert l w. induction idx as [|i idx IH]; intros l w E; [exact E|].
  cbn [photon_loop]. unfold bind.
  destruct (body i w) as [ph' w1].
  apply IH. now apply photon_at_append_before.
Qed.

Lemma photon_loop_balanced (body : nat -> Rand (world H) photon)
    (idx : list nat) (w : world H) :
  balanced (length idx) (fst (photon_loop H body idx empty_log w)).
Proof.
  exact (photon_loop_length H body idx empty_log w 0
           eq_refl eq_refl eq_refl eq_refl).
Qed.

(** In a loop over [0, 1, ..., n-1], the log holds at index [i] what the
    body of iteration [i] returned in the world the first [i] iterations
    left. *)
Lemma photon_loop_at (body : nat -> Rand (world H) photon) (n i : nat)
    (w : world H) :
  (i < n)%nat ->
  photon_at (fst (photon_loop H body (seq 0 n) empty_log w)) i
  = Some (fst (body i (snd (photon_loop H body (seq 0 i) empty_log w)))).
Proof.
  intros Hi.
  replace n with (i + S (n - S i))%nat by lia.
  rewrite seq_app, photon_loop_app. cbn [seq photon_loop Nat.add].
  pose proof (photon_loop_balanced body (seq 0 i) w) as Hb.
  rewrite length_seq in Hb.
  destruct (photon_loop H body (seq 0 i) empty_log w) as [l1 w1].
  cbn [fst snd] in *. unfold bind.
  destruct (body i w1) as [ph w2]. cbn [fst].
  apply photon_loop_keeps. now apply photon_at_append_last.
Qed.

Lemma transmit_until_lists
    (body : list Z -> list basis -> list basis -> nat -> Rand (world H) photon)
    (n : Z) (i : nat) (w : world H) :
  let t := fst (transmit H body n w) in
  let ti := fst (transmit_until H body n i w) in
  tx_alice_bits ti = tx_alice_bits t /\
  tx_alice_bases ti = tx_alice_bases t /\
  tx_bob_bases ti = tx_bob_bases t.
Proof.
  unfold transmit, transmit_until, bind, ret.
  destruct (draws (randint H) (Z.to_nat n) w) as [abits w1].
  destruct (draws (choice H) (Z.to_nat n) w1) as [abases w2].
  destruct (draws (choice H) (Z.to_nat n) w2) as [bbases w3].
  destruct (photon_loop H _ (range n) empty_log w3) as [l w4].
  destruct (photon_loop H _ (seq 0 i) empty_log w3) as [l' w4'].
  simpl. auto.
Qed.

Lemma transmit_photon_at
    (body : list Z -> list basis -> list basis -> nat -> Rand (world H) photon)
    (n : Z) (i : nat) (w : world H) :
  (i < Z.to_nat n)%nat ->
  let t := fst (transmit H body n w) in
  photon_at (tx_log t) i
  = Some (fst (body (tx_alice_bits t) (tx_alice_bases t) (tx_bob_bases t) i
                 (snd (transmit_until H body n i w)))).
Proof.
  intros Hi. unfold transmit, transmit_until, bind, ret.
  destruct (draws (randint H) (Z.to_nat n) w) as [abits w1].
  destruct (draws (choice H) (Z.to_nat n) w1) as [abases w2].
  destruct (draws (choice H) (Z.to_nat n) w2) as [bbases w3].
  pose proof (photon_loop_at (body abits abases bbases) (Z.to_nat n) i w3 Hi)
    as E.
  unfold range.
  destruct (photon_loop H _ (seq 0 (Z.to_nat n)) empty_log w3) as [l w4].
  destruct (photon_loop H _ (seq 0 i) empty_log w3) as [l' w4'].
  exact E.
Qed.

End Iterations.

Lemma photon_at_inv (l : log) (j : nat) (ph : photon) :
  photon_at l j = Some ph ->
  nth_error (log_eve_interceptions l) j = Some (eve_intercepts ph) /\
  nth_error (log_eve_bits l) j = Some (eve_bit ph) /\
  nth_error (log_eve_bases l) j = Some (eve_basis ph) /\
  nth_error (log_bob_bits l) j = Some (bob_bit ph).
Proof.
  unfold photon_at.
  destruct (nth_error (log_eve_interceptions l) j); [|discriminate].
  destruct (nth_error (log_eve_bits l) j); [|discriminate].
  destruct (nth_error (log_eve_bases l) j); [|discriminate].
  destruct (nth_error (log_bob_bits l) j); [|discriminate].
  intros E. injection E as <-. simpl. auto.
Qed.

Section Classical.

Context (H : Host).

(** What Eve's part of an iteration forwards: her own bit and basis when
    she intercepts, Alice's otherwise. *)
Lemma classical_eve_forwards (abits : list Z) (abases : list basis)
    (inc_eve : bool) (rate : Q) (i : nat) (w : world H) :
  let fw := fst (classical_eve H abits abases inc_eve rate i w) in
  if fw_intercepts fw
  then fw_eve_bit fw = Some (transmitted_bit fw) /\
       fw_eve_basis fw = Some (transmitted_basis fw)
  else fw_eve_bit fw = None /\ fw_eve_basis fw = None /\
       transmitted_bit fw = nth i abits 0 /\
       transmitted_basis fw = nth i abases BasisZ.
Proof.
  unfold classical_eve, bind, ret.
  destruct (eve_decides H inc_eve rate w) as [[|] w1].
  - destruct (choice H w1) as [eb w2].
    destruct (basis_eqb eb (nth i abases BasisZ));
      [|destruct (randint H w2) as [x w3]]; simpl; auto.
  - simpl. auto.
Qed.

(** An iteration is Eve's part followed by Bob's measurement. *)
Lemma classical_photon_parts (abits : list Z) (abases bbases : list basis)
    (inc_eve : bool) (rate noise : Q) (i : nat) (w : world H) :
  let eve := classical_eve H abits abases inc_eve rate i w in
  let bob := classical_bob H (nth i bbases BasisZ) (transmitted_bit (fst eve))
               (transmitted_basis (fst eve)) noise (snd eve) in
  fst (classical_photon H abits abases bbases inc_eve rate noise i w)
  = mkPhoton (fw_intercepts (fst eve)) (fw_eve_bit (fst eve))
             (fw_eve_basis (fst eve)) (fst bob).
Proof.
  unfold classical_photon, bind, ret.
  destruct (classical_eve H abits abases inc_eve rate i w) as [fw w1].
  cbn [fst snd].
  now destruct (classical_bob H _ _ _ noise w1) as [b w2].
Qed.

End Classical.

(** C5.  In the classical backend, for every photon [i]: what is transmitted
    is Alice's bit in Alice's basis when the log records no interception,
    and the bit and basis the log records for Eve otherwise; if Bob's basis
    is the transmitted basis, Bob's bit is the transmitted bit, flipped
    exactly when the noise draw is below [noise_level]; if it is not, Bob's
    bit is a fresh [randint(0, 1)] and the measurement reads no
    [noise_level] at all. *)
Theorem bob_measures_what_was_transmitted (H : Host) (n : Z) (inc_eve : bool)
    (rate noise : Q) (w : world H) (i : nat) :
  (i < Z.to_nat n)%nat ->
  let body := fun abits abases bbases =>
    classical_photon H abits abases bbases inc_eve rate noise in
  let t := fst (classical_transmission H n inc_eve rate noise w) in
  let eve := classical_eve H (tx_alice_bits t) (tx_alice_bases t) inc_eve rate
               i (snd (transmit_until H body n i w)) in
  let t_bit := transmitted_bit (fst eve) in
  let t_basis := transmitted_basis (fst eve) in
  let b_basis := nth i (tx_bob_bases t) BasisZ in
  (nth_error (log_eve_interceptions (tx_log t)) i = Some false /\
   t_bit = nth i (tx_alice_bits t) 0 /\
   t_basis = nth i (tx_alice_bases t) BasisZ
   \/
   nth_error (log_eve_interceptions (tx_log t)) i = Some true /\
   nth_error (log_eve_bits (tx_log t)) i = Some (Some t_bit) /\
   nth_error (log_eve_bases (tx_log t)) i = Some (Some t_basis))
  /\ (b_basis = t_basis ->
      nth_error (log_bob_bits (tx_log t)) i
      = Some (if Qltb (fst (random H (snd eve))) noise
              then 1 - t_bit else t_bit))
  /\ (b_basis <> t_basis ->
      nth_error (log_bob_bits (tx_log t)) i
      = Some (fst (randint H (snd eve)))
      /\ forall noise' : Q,
           classical_bob H b_basis t_bit t_basis noise' (snd eve)
           = randint H (snd eve)).
Proof.
  intros Hi body t eve t_bit t_basis b_basis.
  assert (Hat : photon_at (tx_log t) i
                = Some (fst (classical_photon H (tx_alice_bits t)
                               (tx_alice_bases t) (tx_bob_bases t) inc_eve
                               rate noise i
                               (snd (transmit_until H body n i w)))))
    by exact (transmit_photon_at H body n i w Hi).
  rewrite classical_photon_parts in Hat. fold eve in Hat.
  apply photon_at_inv in Hat.
  cbn [eve_intercepts eve_bit eve_basis bob_bit] in Hat.
  destruct Hat as (Hint & Hbit & Hbasis & Hbob).
  fold t_bit t_basis b_basis in Hbob.
  pose proof (classical_eve_forwards H (tx_alice_bits t) (tx_alice_bases t)
                inc_eve rate i (snd (transmit_until H body n i w))) as Hfw.
  cbv zeta in Hfw. fold eve in Hfw. fold t_bit t_basis in Hfw.
  split; [|split].
  - destruct (fw_intercepts (fst eve)).
    + right. destruct Hfw as (E1 & E2). rewrite <- E1, <- E2. auto.
    + left. tauto.
  - intros Eb. rewrite Hbob. unfold classical_bob.
    apply basis_eqb_eq in Eb. rewrite Eb. unfold bind, ret.
    now destruct (random H (snd eve)) as [r w1].
  - intros Nb.
    assert (Ef : basis_eqb b_basis t_basis = false).
    { destruct (basis_eqb b_basis t_basis) eqn:E; [|reflexivity].
      apply basis_eqb_eq in E. contradiction. }
    split.
    + rewrite Hbob. unfold classical_bob. now rewrite Ef.
    + intros noise'. unfold classical_bob. now rewrite Ef.
Qed.

Lemma bob_measures_what_was_transmitted_witness :
  (1 < Z.to_nat 2)%nat
  /\ nth_error
       (log_bob_bits
          (tx_log
             (fst (classical_transmission Script.Classical 2 true 1 0
                     [0; 3 # 4; 0; 0; 0; 3 # 4; 0; 0; 0; 0; 3 # 4; 3 # 4;
                      1 # 2]%Q)))) 1
     = Some 1.
Proof.
  split; [simpl; lia|].
  pose proof (bob_measures_what_was_transmitted Script.Classical 2 true 1 0
                [0; 3 # 4; 0; 0; 0; 3 # 4; 0; 0; 0; 0; 3 # 4; 3 # 4; 1 # 2]%Q
                1%nat ltac:(simpl; lia)) as T.
  cbv zeta in T. destruct T as (_ & T & _).
  rewrite T; reflexivity.
Defined.

(** ** The noiseless channel without Eve *)

Lemma Qltb_ge (a b : Q) : (b <= a)%Q -> Qltb a b = false.
Proof.
  intros Hle. destruct (Qltb a b) eqn:E; [|reflexivity].
  apply Qltb_lt in E. lra.
Qed.

Lemma filter_all {A : Type} (p : A -> bool) (l : list A) :
  (forall x, In x l -> p x = true) -> filter p l = l.
Proof.
  induction l as [|x l IH]; intros Hp; [reflexivity|].
  simpl. rewrite (Hp x (or_introl eq_refl)).
  f_equal. apply IH. intros y Hy. apply Hp. now right.
Qed.

Lemma filter_none {A : Type} (p : A -> bool) (l : list A) :
  (forall x, In x l -> p x = true) -> filter (fun x => negb (p x)) l = [].
Proof.
  induction l as [|x l IH]; intros Hp; [reflexivity|].
  simpl. rewrite (Hp x (or_introl eq_refl)). simpl.
  apply IH. intros y Hy. apply Hp. now right.
Qed.

(** When every sifted record agrees: no error, and the key is as long as
    the sifted records are many. *)
Lemma all_sifted_agree (rs : list Spec.PhotonRecord) :
  (forall r, In r rs -> Spec.basesMatch r = true -> Spec.agree r = true) ->
  Spec.errorCount rs = 0
  /\ Z.of_nat (length (Spec.finalKey rs)) = Spec.siftedCount rs
  /\ (Spec.errorRate rs == 0)%Q
  /\ (fidelity_of rs == if 0 <? Spec.siftedCount rs then 1 else 0)%Q.
Proof.
  intros Hall.
  assert (Hs : forall r, In r (Spec.sifted rs) -> Spec.agree r = true).
  { intros r Hr. apply filter_In in Hr. destruct Hr. now apply Hall. }
  assert (He : Spec.errorCount rs = 0).
  { unfold Spec.errorCount. now rewrite (filter_none _ _ Hs). }
  assert (Hk : Z.of_nat (length (Spec.finalKey rs)) = Spec.siftedCount rs).
  { unfold Spec.finalKey, Spec.siftedCount.
    now rewrite (filter_all _ _ Hs), length_map. }
  split; [exact He|]. split; [exact Hk|].
  unfold Spec.errorRate, fidelity_of. rewrite He, Hk.
  assert (0 <= Spec.siftedCount rs) by (unfold Spec.siftedCount; lia).
  destruct (Z.eqb_spec (Spec.siftedCount rs) 0) as [E|E].
  - rewrite E. split; reflexivity.
  - destruct (Z.ltb_spec 0 (Spec.siftedCount rs)); [|lia].
    assert (Hnz : ~ (inject_Z (Spec.siftedCount rs) == 0)%Q).
    { unfold Qeq. cbn [Qnum Qden inject_Z]. lia. }
    split; field; exact Hnz.
Qed.

Section Noiseless.

Context (H : Host).
Hypothesis in_unit : random_in_unit H.
Variable noise : Q.
Hypothesis no_noise : (noise <= 0)%Q.

Lemma classical_bob_noiseless (b : basis) (t_bit : Z) (t_basis : basis)
    (w : world H) :
  basis_eqb b t_basis = true ->
  fst (classical_bob H b t_bit t_basis noise w) = t_bit.
Proof.
  intros E. unfold classical_bob. rewrite E. unfold bind, ret.
  pose proof (in_unit w) as [H0 _].
  destruct (random H w) as [r w1]. cbn [fst] in *.
  rewrite Qltb_ge by lra. reflexivity.
Qed.

Lemma classical_photon_noiseless (abits : list Z) (abases bbases : list basis)
    (rate : Q) (i : nat) (w : world H) :
  basis_eqb (nth i abases BasisZ) (nth i bbases BasisZ) = true ->
  bob_bit (fst (classical_photon H abits abases bbases false rate noise i w))
  = nth i abits 0.
Proof.
  intros E. rewrite classical_photon_parts. cbn [bob_bit].
  unfold classical_eve, eve_decides, bind, ret.
  cbn [fst snd transmitted_bit transmitted_basis].
  apply classical_bob_noiseless.
  apply basis_eqb_eq in E. rewrite E. apply basis_eqb_refl.
Qed.

(** On every index whose bases match, Bob's bit is Alice's. *)
Lemma noiseless_bits (n : Z) (rate : Q) (w : world H) (i : nat) :
  let t := fst (classical_transmission H n false rate noise w) in
  (i < Z.to_nat n)%nat ->
  basis_eqb (nth i (tx_alice_bases t) BasisZ) (nth i (tx_bob_bases t) BasisZ)
  = true ->
  nth_error (log_bob_bits (tx_log t)) i = Some (nth i (tx_alice_bits t) 0).
Proof.
  intros t Hi E.
  pose proof (transmit_photon_at H
                (fun abits abases bbases =>
                   classical_photon H abits abases bbases false rate noise)
                n i w Hi) as Hat.
  cbv zeta in Hat. apply photon_at_inv in Hat.
  destruct Hat as (_ & _ & _ & Hbob).
  rewrite classical_photon_noiseless in Hbob by exact E.
  exact Hbob.
Qed.

Lemma noiseless_records_agree (n : Z) (rate : Q) (w : world H) :
  let t := fst (classical_transmission H n false rate noise w) in
  forall r, In r (records_of t) ->
            Spec.basesMatch r = true -> Spec.agree r = true.
Proof.
  intros t r Hr Hm.
  unfold records_of, Spec.records, Spec.records_from in Hr.
  apply in_map_iff in Hr. destruct Hr as (i & <- & Hi).
  apply in_seq in Hi.
  pose proof (transmit_well_formed H
                (fun abits abases bbases =>
                   classical_photon H abits abases bbases false rate noise)
                n w) as (Ha & _).
  fold (classical_transmission H n false rate noise w) in Ha. fold t in Ha.
  unfold Spec.basesMatch in Hm. cbn in Hm.
  pose proof (noiseless_bits n rate w i) as Hb. cbv zeta in Hb. fold t in Hb.
  specialize (Hb ltac:(lia) Hm).
  unfold Spec.agree. cbn.
  rewrite (nth_error_nth _ _ 0 Hb). apply Z.eqb_refl.
Qed.

End Noiseless.

Lemma classical_simulation_process (H : Host) (n : Z) (inc_eve : bool)
    (rate noise : Q) (w : world H) :
  fst (_classical_simulation H n inc_eve rate noise w)
  = process inc_eve (fst (classical_transmission H n inc_eve rate noise w)).
Proof.
  unfold _classical_simulation, bind, ret.
  now destruct (classical_transmission H n inc_eve rate noise w).
Qed.

(** C10.  In the classical backend without Eve and with [noise_level <= 0]
    (and [random.random()] in [[0, 1)]): on every index whose bases match,
    Bob's bit is Alice's bit; the extraction loop counts no error, its error
    rate is 0 and its key has one bit per matching index; the returned
    result has error rate 0, a key as long as the matching indices are many,
    and fidelity 1 if some basis matches and 0 if none does. *)
Theorem noiseless_channel_without_eve (H : Host) (n : Z) (rate noise : Q)
    (w : world H) :
  random_in_unit H ->
  (noise <= 0)%Q ->
  let t := fst (classical_transmission H n false rate noise w) in
  let ms := compare_bases (tx_alice_bases t) (tx_bob_bases t) in
  let sifted_count := count_occ bool_dec ms true in
  (forall i : nat,
     nth_error ms i = Some true ->
     nth_error (log_bob_bits (tx_log t)) i = nth_error (tx_alice_bits t) i)
  /\ (exists st : sifting,
        sift (tx_alice_bits t) (log_bob_bits (tx_log t)) ms = Ok st
        /\ error_count st = 0
        /\ (error_rate_of st == 0)%Q
        /\ length (key st) = sifted_count)
  /\ match fst (_classical_simulation H n false rate noise w) with
     | Ok r =>
         (error_rate r == 0)%Q
         /\ length (final_key r) = sifted_count
         /\ (quantum_fidelity r == if (0 <? sifted_count)%nat then 1 else 0)%Q
     | Raise _ => n <= 0
     end.
Proof.
  intros Hu Hnoise t ms sifted_count.
  pose proof (transmit_well_formed H
                (fun abits abases bbases =>
                   classical_photon H abits abases bbases false rate noise)
                n w) as Hwf.
  fold (classical_transmission H n false rate noise w) in Hwf. fold t in Hwf.
  pose proof (count_matching t _ Hwf) as Hcount. fold ms sifted_count in Hcount.
  pose proof (all_sifted_agree (records_of t)
                (noiseless_records_agree H Hu noise Hnoise n rate w))
    as (He & Hk & Hrate & Hfid).
  rewrite <- Hcount in Hk, Hfid.
  destruct Hwf as (Ha & Hb & Hc & Hd & Hrest).
  split; [|split].
  - intros i Hm.
    assert (Hi : (i < Z.to_nat n)%nat).
    { apply (f_equal (fun o => match o with Some _ => true | None => false end))
        in Hm.
      destruct (Nat.lt_ge_cases i (Z.to_nat n)) as [L|L]; [exact L|].
      rewrite (proj2 (nth_error_None ms i)) in Hm; [discriminate|].
      unfold ms. rewrite compare_bases_length. lia. }
    unfold ms in Hm. rewrite compare_bases_nth in Hm by lia.
    injection Hm as Hm.
    etransitivity;
      [exact (noiseless_bits H Hu noise Hnoise n rate w i Hi Hm)|].
    symmetry. apply nth_error_nth'. fold t. lia.
  - exists (mkSifting (Spec.finalKey (records_of t))
                      (Spec.siftedCount (records_of t))
                      (Spec.errorCount (records_of t))).
    split; [apply sift_records; congruence|].
    cbn [key error_count]. split; [exact He|]. split; [|lia].
    unfold records_of. rewrite error_rate_records. exact Hrate.
  - rewrite classical_simulation_process. fold t.
    destruct (Z.le_gt_cases n 0) as [Hn|Hn].
    + rewrite process_none; [exact Hn|].
      unfold well_formed. repeat split; lia.
    + rewrite (process_some false t (Z.to_nat n)) by
        (try lia; unfold well_formed; tauto).
      cbn [error_rate final_key quantum_fidelity result_of].
      split; [exact Hrate|]. split; [lia|].
      rewrite Hfid.
      destruct (Z.ltb_spec 0 (Z.of_nat sifted_count)),
               (Nat.ltb_spec 0 sifted_count); try lia; reflexivity.
Qed.

Lemma noiseless_channel_without_eve_witness :
  random_in_unit Script.Classical
  /\ (0 <= 0)%Q
  /\ match fst (_classical_simulation Script.Classical 4 false (3 # 10) 0
                  [0; 3 # 4; 0; 3 # 4; 0; 0; 3 # 4; 3 # 4; 0; 3 # 4; 3 # 4; 0;
                   1 # 2; 1 # 4; 1 # 2; 3 # 4]%Q) with
     | Ok r => (quantum_fidelity r == 1)%Q
     | Raise _ => False
     end.
Proof.
  split; [exact script_classical_in_unit|].
  split; [apply Qle_refl|].
  pose proof (noiseless_channel_without_eve Script.Classical 4 (3 # 10) 0
                [0; 3 # 4; 0; 3 # 4; 0; 0; 3 # 4; 3 # 4; 0; 3 # 4; 3 # 4; 0;
                 1 # 2; 1 # 4; 1 # 2; 3 # 4]%Q
                script_classical_in_unit (Qle_refl 0)) as T.
  cbv zeta in T. destruct T as (_ & _ & T).
  destruct (fst (_classical_simulation Script.Classical 4 false (3 # 10) 0 _))
    as [r|e].
  - destruct T as (_ & _ & T). exact T.
  - lia.
Defined.

(** ** Further properties of the engine *)

(** *** The three metrics *)

Lemma ratio_in_unit (a b : Z) :
  0 <= a <= b -> 0 < b ->
  (0 <= inject_Z a / inject_Z b /\ inject_Z a / inject_Z b <= 1)%Q.
Proof.
  intros [Ha Hab] Hb.
  assert (Hb' : (0 < inject_Z b)%Q).
  { change 0%Q with (inject_Z 0). rewrite <- Zlt_Qlt. exact Hb. }
  split.
  - apply Qle_shift_div_l; [exact Hb'|].
    rewrite Qmult_0_l. change 0%Q with (inject_Z 0).
    rewrite <- Zle_Qle. exact Ha.
  - apply Qle_shift_div_r; [exact Hb'|].
    rewrite Qmult_1_l. rewrite <- Zle_Qle. exact Hab.
Qed.

Lemma error_count_bounds (rs : list Spec.PhotonRecord) :
  0 <= Spec.errorCount rs <= Spec.siftedCount rs.
Proof.
  pose proof (sifted_count_key_errors rs).
  unfold Spec.errorCount in *. lia.
Qed.

Lemma key_length_bounds (rs : list Spec.PhotonRecord) :
  0 <= Z.of_nat (length (Spec.finalKey rs)) <= Spec.siftedCount rs.
Proof.
  pose proof (sifted_count_key_errors rs).
  pose proof (error_count_bounds rs). lia.
Qed.

(** What a run returns, or why it returns nothing. *)
Lemma simulate_outcome (H : Host) (p : params) (w : world H) :
  let n := get (numQubits p) 20 in
  (exists x : exn,
      eve_rate_of p = Raise x /\ fst (simulate H p w) = Raise x)
  \/ (n <= 0 /\ fst (simulate H p w) = Raise ZeroDivisionError)
  \/ (exists e : Q,
        eve_rate_of p = Ok e /\ 1 <= n
        /\ well_formed (Z.to_nat n) (fst (transmission_with H p e w))
        /\ fst (simulate H p w)
           = Ok (result_of (get (includeEve p) false)
                           (fst (transmission_with H p e w)))).
Proof.
  intros n. destruct (eve_rate_of p) as [e|x] eqn:Erate.
  2:{ left. exists x. split; [reflexivity|].
      now destruct (simulate_raises H p x w Erate) as (-> & _). }
  right. destruct (simulate_returns H p e w Erate) as (-> & _).
  destruct (Z.le_gt_cases n 0) as [Hn|Hn].
  - left. split; [exact Hn|]. now apply simulate_none.
  - right. exists e. split; [reflexivity|]. split; [lia|]. split.
    + apply transmission_with_well_formed.
    + apply simulate_some. fold n. lia.
Qed.

(** X1.  Every result of [simulate] has its error rate, its transmission
    efficiency and its fidelity between 0 and 1; a run returns a result
    unless it has no photon or the quotient of line 46 raises. *)
Theorem metrics_between_0_and_1 (H : Host) (p : params) (w : world H) :
  match fst (simulate H p w) with
  | Ok r =>
      (0 <= error_rate r /\ error_rate r <= 1)%Q /\
      (0 <= transmission_efficiency r /\ transmission_efficiency r <= 1)%Q /\
      (0 <= quantum_fidelity r /\ quantum_fidelity r <= 1)%Q
  | Raise e => get (numQubits p) 20 <= 0 \/ eve_rate_of p = Raise e
  end.
Proof.
  destruct (simulate_outcome H p w)
    as [(x & Ex & ->)|[[Hn ->]|(e & Erate & Hn & Hwf & ->)]];
    [right; exact Ex | left; exact Hn |].
  set (t := fst (transmission_with H p e w)) in *.
  cbn [error_rate transmission_efficiency quantum_fidelity result_of].
  pose proof (error_count_bounds (records_of t)) as He.
  pose proof (key_length_bounds (records_of t)) as Hk.
  pose proof (sifted_count_le (records_of t)) as Hs.
  unfold records_of in Hs at 2. rewrite records_length in Hs.
  destruct Hwf as (Ha & _).
  split; [|split].
  - unfold Spec.errorRate.
    destruct (Z.eqb_spec (Spec.siftedCount (records_of t)) 0);
      [split; discriminate | apply ratio_in_unit; lia].
  - apply ratio_in_unit; lia.
  - unfold fidelity_of.
    destruct (Z.eqb_spec (Spec.siftedCount (records_of t)) 0);
      [split; discriminate | apply ratio_in_unit; lia].
Qed.

(** X2.  In every result the three metrics account for the same counts:
    the efficiency times [numQubits] and the fidelity times the number of
    matching bases are both the length of the key, and the error rate times
    the number of matching bases is the number of matching bases left out
    of the key. *)
Theorem metrics_account_for_key (H : Host) (p : params) (w : world H) :
  match fst (simulate H p w) with
  | Ok r =>
      let k := inject_Z (Z.of_nat (length (final_key r))) in
      let c := inject_Z (count_true (matching_bases r)) in
      (transmission_efficiency r * inject_Z (get (numQubits p) 20%Z) == k)%Q /\
      (quantum_fidelity r * c == k)%Q /\
      (error_rate r * c == c - k)%Q
  | Raise e => get (numQubits p) 20 <= 0 \/ eve_rate_of p = Raise e
  end.
Proof.
  destruct (simulate_outcome H p w)
    as [(x & Ex & ->)|[[Hn ->]|(e & Erate & Hn & Hwf & ->)]];
    [right; exact Ex | left; exact Hn |].
  set (t := fst (transmission_with H p e w)) in *.
  cbn [error_rate transmission_efficiency quantum_fidelity final_key
       matching_bases result_of].
  unfold count_true. rewrite (count_matching t _ Hwf).
  pose proof (sifted_count_key_errors (records_of t)) as Hsum.
  pose proof (key_length_bounds (records_of t)) as Hk.
  destruct Hwf as (Ha & _).
  cbv zeta.
  set (k := Z.of_nat (length (Spec.finalKey (records_of t)))) in *.
  set (c := Spec.siftedCount (records_of t)) in *.
  assert (Hne : forall z : Z, z <> 0 -> ~ (inject_Z z == 0)%Q).
  { intros z Hz E. unfold Qeq in E. cbn [Qnum Qden inject_Z] in E. lia. }
  split; [|split].
  - rewrite Ha, Z2Nat.id by lia. field. apply Hne. lia.
  - unfold fidelity_of. fold c k.
    destruct (Z.eqb_spec c 0) as [E|E].
    + replace k with 0 by lia. rewrite E. reflexivity.
    + field. now apply Hne.
  - unfold Spec.errorRate. fold c.
    destruct (Z.eqb_spec c 0) as [E|E].
    + replace k with 0 by lia. rewrite E. reflexivity.
    + replace (Spec.errorCount (records_of t)) with (c - k) by lia.
      unfold Z.sub. rewrite inject_Z_plus, inject_Z_opp.
      field. now apply Hne.
Qed.

(** *** The result processor with the two parties exchanged *)

Lemma basis_eqb_sym (a b : basis) : basis_eqb a b = basis_eqb b a.
Proof. now destruct a, b. Qed.

Lemma compare_bases_sym (abases bbases : list basis) :
  compare_bases bbases abases = compare_bases abases bbases.
Proof.
  unfold compare_bases. revert bbases.
  induction abases as [|a abases IH]; intros [|b bbases]; simpl;
    try reflexivity.
  now rewrite IH, basis_eqb_sym.
Qed.

Lemma records_swapped (abits : list Z) (abases : list basis) (bbits : list Z)
    (bbases : list basis) :
  length bbits = length abits ->
  Spec.records bbits bbases abits abases
  = map swap_roles (Spec.records abits abases bbits bbases).
Proof.
  intros E. unfold Spec.records, Spec.records_from.
  rewrite E, map_map. apply map_ext. reflexivity.
Qed.

Lemma sifting_swapped (rs : list Spec.PhotonRecord) :
  Spec.finalKey (map swap_roles rs) = Spec.finalKey rs
  /\ Spec.errorCount (map swap_roles rs) = Spec.errorCount rs
  /\ Spec.siftedCount (map swap_roles rs) = Spec.siftedCount rs.
Proof.
  unfold Spec.finalKey, Spec.errorCount, Spec.siftedCount, Spec.sifted.
  induction rs as [|r rs (IHk & IHe & IHs)]; [repeat split|].
  cbn [map filter].
  assert (Hm : Spec.basesMatch (swap_roles r) = Spec.basesMatch r)
    by apply basis_eqb_sym.
  assert (Ha : Spec.agree (swap_roles r) = Spec.agree r)
    by apply Z.eqb_sym.
  rewrite Hm. destruct (Spec.basesMatch r); [|auto].
  cbn [filter]. rewrite Ha.
  destruct (Spec.agree r) eqn:Eag; cbn [negb map length].
  - apply Z.eqb_eq in Eag. cbn [swap_roles Spec.aliceBit].
    rewrite IHk, <- Eag. repeat split; lia.
  - rewrite IHk. repeat split; lia.
Qed.

(** X3.  On the lists of a transmission (four lists of one length, not
    empty), the result processor run from Bob's side - his bits and bases in
    Alice's place and hers in his - returns the same key, the same comparison
    list and the same three metrics. *)
Theorem process_results_symmetric (abits : list Z) (abases : list basis)
    (bbits : list Z) (bbases : list basis) (ebits : list (option Z))
    (ebases : list (option basis)) (eints : list bool) (inc_eve : bool) :
  length abases = length abits ->
  length bbits = length abits ->
  length bbases = length abits ->
  abits <> [] ->
  exists r r' : BB84Result,
    _process_results abits abases bbits bbases ebits ebases eints inc_eve
    = Ok r
    /\ _process_results bbits bbases abits abases ebits ebases eints inc_eve
       = Ok r'
    /\ final_key r' = final_key r
    /\ matching_bases r' = matching_bases r
    /\ error_rate r' = error_rate r
    /\ transmission_efficiency r' = transmission_efficiency r
    /\ quantum_fidelity r' = quantum_fidelity r.
Proof.
  intros Ha Hb Hc Hne.
  assert (Hne' : bbits <> []).
  { intros E. rewrite E in Hb. destruct abits; [congruence|discriminate]. }
  eexists. eexists.
  split; [apply process_results_records; assumption|].
  split; [apply process_results_records; congruence|].
  cbn [final_key matching_bases error_rate transmission_efficiency
       quantum_fidelity].
  rewrite (records_swapped abits abases bbits bbases Hb).
  destruct (sifting_swapped (Spec.records abits abases bbits bbases))
    as (Ek & Ee & Es).
  unfold Spec.errorRate, fidelity_of. rewrite Ek, Ee, Es, Hb.
  rewrite compare_bases_sym. repeat split.
Qed.

Lemma process_results_symmetric_witness :
  length [BasisZ; BasisX; BasisX] = length [0; 1; 1]
  /\ length [0; 0; 1] = length [0; 1; 1]
  /\ length [BasisZ; BasisX; BasisZ] = length [0; 1; 1]
  /\ [0; 1; 1] <> []
  /\ exists r r' : BB84Result,
       _process_results [0; 1; 1] [BasisZ; BasisX; BasisX]
         [0; 0; 1] [BasisZ; BasisX; BasisZ] [] [] [] false = Ok r
       /\ _process_results [0; 0; 1] [BasisZ; BasisX; BasisZ]
            [0; 1; 1] [BasisZ; BasisX; BasisX] [] [] [] false = Ok r'
       /\ final_key r' = final_key r.
Proof.
  split; [reflexivity|]. split; [reflexivity|]. split; [reflexivity|].
  split; [discriminate|].
  destruct (process_results_symmetric [0; 1; 1] [BasisZ; BasisX; BasisX]
              [0; 0; 1] [BasisZ; BasisX; BasisZ] [] [] [] false
              eq_refl eq_refl eq_refl ltac:(discriminate))
    as (r & r' & E & E' & Ek & _).
  exists r, r'. auto.
Defined.

(** *** The result processor on lists that are not those of a transmission *)

Lemma sift_loop_no_match (abits bbits : list Z) (ms : list bool) (i : nat)
    (st : sifting) :
  Forall (fun m => m = false) ms -> sift_loop abits bbits ms i st = Ok st.
Proof.
  intros Hall. revert i. induction Hall as [|m ms Hm _ IH]; intros i;
    [reflexivity|].
  cbn [sift_loop]. unfold sift_step. rewrite Hm. cbn [obind]. apply IH.
Qed.

Lemma sum_bools_no_match (ms : list bool) :
  Forall (fun m => m = false) ms -> sum_bools ms = 0.
Proof.
  intros Hall. rewrite sum_bools_count.
  induction Hall as [|m ms Hm _ IH]; [reflexivity|].
  rewrite Hm. exact IH.
Qed.

(** X4.  When no pair of bases matches (in particular when a list of bases
    is empty) and [alice_bits] is not empty, the result processor reads no
    bit at all: whatever the lengths of the lists, it returns an empty key,
    error rate 0, efficiency 0 and fidelity 0. *)
Theorem process_results_no_match (abits : list Z) (abases : list basis)
    (bbits : list Z) (bbases : list basis) (ebits : list (option Z))
    (ebases : list (option basis)) (eints : list bool) (inc_eve : bool) :
  Forall (fun m => m = false) (compare_bases abases bbases) ->
  abits <> [] ->
  exists r : BB84Result,
    _process_results abits abases bbits bbases ebits ebases eints inc_eve
    = Ok r
    /\ final_key r = []
    /\ error_rate r = 0%Q
    /\ (transmission_efficiency r == 0)%Q
    /\ quantum_fidelity r = 0%Q.
Proof.
  intros Hall Hne. unfold _process_results, sift.
  rewrite sift_loop_no_match by exact Hall. cbn [obind key].
  unfold efficiency_of.
  destruct (Z.eqb_spec (Z.of_nat (length abits)) 0) as [E|E].
  { destruct abits; [congruence | simpl in E; lia]. }
  cbn [obind]. unfold _calculate_fidelity.
  rewrite sum_bools_no_match by exact Hall. cbn [Z.eqb obind].
  eexists. split; [reflexivity|].
  cbn [final_key error_rate transmission_efficiency quantum_fidelity].
  repeat split.
Qed.

Lemma process_results_no_match_witness :
  Forall (fun m => m = false) (compare_bases [BasisZ; BasisX] [BasisX])
  /\ [1] <> []
  /\ exists r : BB84Result,
       _process_results [1] [BasisZ; BasisX] [] [BasisX] [] [] [] true = Ok r
       /\ final_key r = [].
Proof.
  assert (Hall : Forall (fun m => m = false)
                   (compare_bases [BasisZ; BasisX] [BasisX]))
    by (repeat constructor).
  split; [exact Hall|]. split; [discriminate|].
  destruct (process_results_no_match [1] [BasisZ; BasisX] [] [BasisX]
              [] [] [] true Hall ltac:(discriminate))
    as (r & E & Ek & _).
  exists r. auto.
Defined.

Lemma sift_loop_index_error (abits bbits : list Z) (ms : list bool) (k : nat)
    (st : sifting) :
  (exists j : nat,
      nth_error ms j = Some true
      /\ (length abits <= k + j \/ length bbits <= k + j)%nat) ->
  sift_loop abits bbits ms k st = Raise IndexError.
Proof.
  revert k st. induction ms as [|m ms IH]; intros k st (j & Hj & Hout).
  - destruct j; discriminate Hj.
  - cbn [sift_loop]. unfold sift_step. destruct m.
    + unfold getitem.
      destruct (nth_error abits k) as [a|] eqn:Ea; [|reflexivity].
      cbn [obind].
      destruct (nth_error bbits k) as [b|] eqn:Eb; [|reflexivity].
      cbn [obind].
      assert (La : (k < length abits)%nat)
        by (apply nth_error_Some; congruence).
      assert (Lb : (k < length bbits)%nat)
        by (apply nth_error_Some; congruence).
      destruct j as [|j]; [lia|].
      destruct (a =? b); cbn [obind]; apply IH; exists j;
        (split; [exact Hj | lia]).
    + cbn [obind]. destruct j as [|j]; [discriminate Hj|].
      apply IH. exists j. split; [exact Hj | lia].
Qed.

(** X5.  When the bases match at an index that [alice_bits] or [bob_bits]
    does not have, the result processor raises [IndexError] - also when
    [alice_bits] is empty: the extraction loop runs before the quotient by
    [len(alice_bits)]. *)
Theorem process_results_index_error (abits : list Z) (abases : list basis)
    (bbits : list Z) (bbases : list basis) (ebits : list (option Z))
    (ebases : list (option basis)) (eints : list bool) (inc_eve : bool)
    (i : nat) :
  nth_error (compare_bases abases bbases) i = Some true ->
  (length abits <= i \/ length bbits <= i)%nat ->
  _process_results abits abases bbits bbases ebits ebases eints inc_eve
  = Raise IndexError.
Proof.
  intros Hi Hout. unfold _process_results, sift.
  rewrite sift_loop_index_error; [reflexivity|].
  exists i. split; [exact Hi | exact Hout].
Qed.

Lemma process_results_index_error_witness :
  nth_error (compare_bases [BasisX] [BasisX]) 0 = Some true
  /\ (length (@nil Z) <= 0 \/ length [1] <= 0)%nat
  /\ _process_results [] [BasisX] [1] [BasisX] [] [] [] false
     = Raise IndexError.
Proof.
  split; [reflexivity|]. split; [left; simpl; lia|].
  apply (process_results_index_error [] [BasisX] [1] [BasisX] [] [] [] false
           0%nat); [reflexivity | left; simpl; lia].
Defined.

(** *** What holds of every photon holds at every index of the lists *)

Lemma Forall_nth_error {A : Type} (Q : A -> Prop) (l : list A) :
  (forall i x, nth_error l i = Some x -> Q x) -> Forall Q l.
Proof.
  intros Hq. apply Forall_forall. intros x Hx.
  apply In_nth_error in Hx. destruct Hx as [i Hi]. exact (Hq i x Hi).
Qed.

Lemma draws_Forall {W A : Type} (Q : A -> Prop) (f : Rand W A) :
  (forall w, Q (fst (f w))) ->
  forall n w, Forall Q (fst (draws f n w)).
Proof.
  intros Hq n. induction n as [|n IH]; intros w; [constructor|].
  cbn [draws]. unfold bind, ret.
  pose proof (Hq w) as Hx. destruct (f w) as [x w1].
  pose proof (IH w1) as Hxs. destruct (draws f n w1) as [xs w2].
  constructor; assumption.
Qed.

Section EveryPhoton.

Context (H : Host).

(** In a transmission, a property of what the body returns in every world
    holds of the photon at every index. *)
Lemma transmit_photons
    (body : list Z -> list basis -> list basis -> nat
            -> Rand (world H) photon)
    (P : list Z -> list basis -> list basis -> nat -> photon -> Prop) :
  (forall abits abases bbases i w,
      P abits abases bbases i (fst (body abits abases bbases i w))) ->
  forall (n : Z) (w : world H) (i : nat),
    (i < Z.to_nat n)%nat ->
    let t := fst (transmit H body n w) in
    exists ph : photon,
      photon_at (tx_log t) i = Some ph
      /\ P (tx_alice_bits t) (tx_alice_bases t) (tx_bob_bases t) i ph.
Proof.
  intros Hp n w i Hi t. eexists. split.
  - exact (transmit_photon_at H body n i w Hi).
  - apply Hp.
Qed.

(** The same for the transmission of the backend [simulate] selects. *)
Lemma simulate_photons (p : params) (eve_rate : Q)
    (P : list Z -> list basis -> list basis -> nat -> photon -> Prop) :
  let include_eve := get (includeEve p) false in
  let noise_level := get (noiseLevel p) default_noise_level in
  (forall abits abases bbases i w,
      P abits abases bbases i
        (fst (classical_photon H abits abases bbases include_eve eve_rate
                noise_level i w))) ->
  (forall abits abases bbases i w,
      P abits abases bbases i
        (fst (quantum_photon H abits abases bbases include_eve eve_rate
                i w))) ->
  forall (w : world H) (i : nat),
    (i < Z.to_nat (get (numQubits p) 20%Z))%nat ->
    let t := fst (transmission_with H p eve_rate w) in
    exists ph : photon,
      photon_at (tx_log t) i = Some ph
      /\ P (tx_alice_bits t) (tx_alice_bases t) (tx_bob_bases t) i ph.
Proof.
  intros include_eve noise_level Hc Hq w i Hi.
  unfold transmission_with.
  fold include_eve noise_level.
  destruct (QISKIT_AVAILABLE H && _).
  - apply (transmit_photons _ P Hq). exact Hi.
  - apply (transmit_photons _ P Hc). exact Hi.
Qed.

Lemma classical_photon_eve_consistent (abits : list Z)
    (abases bbases : list basis) (inc_eve : bool) (rate noise : Q) (i : nat)
    (w : world H) :
  eve_consistent
    (fst (classical_photon H abits abases bbases inc_eve rate noise i w)).
Proof.
  rewrite classical_photon_parts. unfold eve_consistent.
  cbn [eve_intercepts eve_bit eve_basis].
  pose proof (classical_eve_forwards H abits abases inc_eve rate i w) as Hfw.
  cbv zeta in Hfw.
  destruct (fw_intercepts
              (fst (classical_eve H abits abases inc_eve rate i w))).
  - left. destruct Hfw as (E1 & E2). rewrite E1, E2. eauto.
  - right. tauto.
Qed.

Lemma quantum_photon_eve_consistent (abits : list Z)
    (abases bbases : list basis) (inc_eve : bool) (rate : Q) (i : nat)
    (w : world H) :
  eve_consistent (fst (quantum_photon H abits abases bbases inc_eve rate i w)).
Proof.
  unfold quantum_photon, quantum_eve, bind, ret, eve_consistent.
  destruct (eve_decides H inc_eve rate w) as [[|] w1].
  - destruct (choice H w1) as [eb w2].
    destruct (measure H _ eb w2) as [e w3].
    destruct (measure H _ _ w3) as [b w4]. cbn. left. eauto.
  - destruct (measure H _ _ w1) as [b w2]. cbn. right. auto.
Qed.

End EveryPhoton.

(** X6.  In every result, at every index, Eve's three records go together:
    either [eve_interceptions] holds [True] and [eve_bits] and [eve_bases]
    hold a bit and a basis, or it holds [False] and both hold [None]. *)
Theorem eve_records_go_together (H : Host) (p : params) (w : world H) :
  match fst (simulate H p w) with
  | Ok r =>
      forall i : nat,
        (i < length (eve_interceptions r))%nat ->
        (nth_error (eve_interceptions r) i = Some true
         /\ (exists b : Z, nth_error (eve_bits r) i = Some (Some b))
         /\ (exists bs : basis, nth_error (eve_bases r) i = Some (Some bs)))
        \/ (nth_error (eve_interceptions r) i = Some false
            /\ nth_error (eve_bits r) i = Some None
            /\ nth_error (eve_bases r) i = Some None)
  | Raise e => get (numQubits p) 20 <= 0 \/ eve_rate_of p = Raise e
  end.
Proof.
  destruct (simulate_outcome H p w)
    as [(x & Ex & ->)|[[Hn ->]|(e & Erate & Hn & Hwf & ->)]];
    [right; exact Ex | left; exact Hn |].
  cbn [eve_interceptions eve_bits eve_bases result_of].
  intros i Hi.
  destruct Hwf as (_ & _ & _ & _ & _ & _ & Hlen). rewrite Hlen in Hi.
  destruct (simulate_photons H p e (fun _ _ _ _ ph => eve_consistent ph)
              (fun ab abs bbs j w' =>
                 classical_photon_eve_consistent H ab abs bbs _ _ _ j w')
              (fun ab abs bbs j w' =>
                 quantum_photon_eve_consistent H ab abs bbs _ _ j w')
              w i Hi) as (ph & Hat & Hph).
  apply photon_at_inv in Hat. destruct Hat as (E1 & E2 & E3 & _).
  rewrite E1, E2, E3.
  destruct Hph as [(-> & (b & ->) & (bs & ->)) | (-> & -> & ->)].
  - left. eauto.
  - right. auto.
Qed.

(** *** Bits *)

Lemma nth_is_bit (l : list Z) (i : nat) :
  Forall is_bit l -> is_bit (nth i l 0).
Proof.
  intros Hl. destruct (nth_in_or_default i l 0) as [Hin | ->].
  - exact (proj1 (Forall_forall _ _) Hl _ Hin).
  - now left.
Qed.

Section Bits.

Context (H : Host).
Hypothesis host_bits : bits_from H.

Lemma classical_bob_is_bit (b : basis) (t_bit : Z) (t_basis : basis)
    (noise : Q) (w : world H) :
  is_bit t_bit -> is_bit (fst (classical_bob H b t_bit t_basis noise w)).
Proof.
  intros Ht. unfold classical_bob.
  destruct (basis_eqb b t_basis); [|apply host_bits].
  unfold bind, ret. destruct (random H w) as [r w1]. cbn [fst].
  destruct (Qltb r noise); [|exact Ht].
  destruct Ht as [-> | ->]; [now right | now left].
Qed.

Lemma classical_photon_bits (abits : list Z) (abases bbases : list basis)
    (inc_eve : bool) (rate noise : Q) (i : nat) (w : world H) :
  Forall is_bit abits ->
  let ph := fst (classical_photon H abits abases bbases inc_eve rate noise
                   i w) in
  is_bit (bob_bit ph) /\ is_optional_bit (eve_bit ph).
Proof.
  intros Ha. cbv zeta. rewrite classical_photon_parts.
  cbn [bob_bit eve_bit].
  assert (Hfw : let fw := fst (classical_eve H abits abases inc_eve rate i w)
                in is_bit (transmitted_bit fw)
                   /\ is_optional_bit (fw_eve_bit fw)).
  { unfold classical_eve, bind, ret.
    destruct (eve_decides H inc_eve rate w) as [[|] w1].
    - destruct (choice H w1) as [eb w2].
      destruct (basis_eqb eb (nth i abases BasisZ)).
      + cbn. split; now apply nth_is_bit.
      + pose proof (proj1 host_bits w2) as Hr.
        destruct (randint H w2) as [x w3]. cbn in *. auto.
    - cbn. split; [now apply nth_is_bit | exact I]. }
  cbv zeta in Hfw. destruct Hfw as (Ht & He).
  split; [now apply classical_bob_is_bit | exact He].
Qed.

Lemma quantum_photon_bits (abits : list Z) (abases bbases : list basis)
    (inc_eve : bool) (rate : Q) (i : nat) (w : world H) :
  let ph := fst (quantum_photon H abits abases bbases inc_eve rate i w) in
  is_bit (bob_bit ph) /\ is_optional_bit (eve_bit ph).
Proof.
  unfold quantum_photon, quantum_eve, bind, ret, measure.
  destruct (eve_decides H inc_eve rate w) as [[|] w1].
  - destruct (choice H w1) as [eb w2].
    pose proof (proj2 host_bits
                  (prepare (nth i abits 0) (nth i abases BasisZ)
                   ++ hadamard_if_X eb ++ [Measure]) w2) as He.
    destruct (run_shot H _ w2) as [e w3]. cbn [fst] in He.
    pose proof (proj2 host_bits
                  (prepare e eb ++ hadamard_if_X (nth i bbases BasisZ)
                   ++ [Measure]) w3) as Hb.
    destruct (run_shot H _ w3) as [b w4]. cbn in *. auto.
  - pose proof (proj2 host_bits
                  (prepare (nth i abits 0) (nth i abases BasisZ)
                   ++ hadamard_if_X (nth i bbases BasisZ) ++ [Measure]) w1)
      as Hb.
    destruct (run_shot H _ w1) as [b w2]. cbn in *. auto.
Qed.

Lemma alice_bits_are_bits (p : params) (e : Q) (w : world H) :
  Forall is_bit (tx_alice_bits (fst (transmission_with H p e w))).
Proof.
  unfold transmission_with.
  destruct (QISKIT_AVAILABLE H && _);
    unfold quantum_transmission, classical_transmission, transmit, bind, ret;
    pose proof (draws_Forall is_bit (randint H) (proj1 host_bits)
                  (Z.to_nat (get (numQubits p) 20)) w) as Ha;
    destruct (draws (randint H) _ w) as [abits w1];
    destruct (draws (choice H) _ w1) as [abases w2];
    destruct (draws (choice H) _ w2) as [bbases w3];
    destruct (photon_loop H _ _ empty_log w3) as [l w4];
    exact Ha.
Qed.

End Bits.

Lemma final_key_of_bits (abits : list Z) (abases : list basis)
    (bbits : list Z) (bbases : list basis) :
  Forall is_bit abits ->
  Forall is_bit (Spec.finalKey (Spec.records abits abases bbits bbases)).
Proof.
  intros Ha. unfold Spec.finalKey. apply Forall_map, Forall_forall.
  intros r Hr. apply filter_In in Hr. destruct Hr as [Hr _].
  apply filter_In in Hr. destruct Hr as [Hr _].
  unfold Spec.records, Spec.records_from in Hr.
  apply in_map_iff in Hr. destruct Hr as (i & <- & _).
  cbn. now apply nth_is_bit.
Qed.

(** X7.  On a host whose [random.randint(0, 1)] returns 0 or 1 and whose
    shots read 0 or 1, every result holds nothing but bits: [alice_bits],
    [bob_bits], [final_key], and the entries of [eve_bits] that are not
    [None]. *)
Theorem results_hold_bits (H : Host) (p : params) (w : world H) :
  bits_from H ->
  match fst (simulate H p w) with
  | Ok r =>
      Forall is_bit (alice_bits r) /\
      Forall is_bit (bob_bits r) /\
      Forall is_optional_bit (eve_bits r) /\
      Forall is_bit (final_key r)
  | Raise e => get (numQubits p) 20 <= 0 \/ eve_rate_of p = Raise e
  end.
Proof.
  intros Hbits.
  destruct (simulate_outcome H p w)
    as [(x & Ex & ->)|[[Hn ->]|(e & Erate & Hn & Hwf & ->)]];
    [right; exact Ex | left; exact Hn |].
  cbn [alice_bits bob_bits eve_bits final_key result_of].
  pose proof (alice_bits_are_bits H Hbits p e w) as Ha.
  set (t := fst (transmission_with H p e w)) in *.
  destruct Hwf as (_ & _ & _ & Lb & Le & _).
  assert (Hph : forall i, (i < Z.to_nat (get (numQubits p) 20%Z))%nat ->
            exists ph, photon_at (tx_log t) i = Some ph
                       /\ is_bit (bob_bit ph)
                       /\ is_optional_bit (eve_bit ph)).
  { intros i Hi.
    destruct (simulate_photons H p e
                (fun ab _ _ _ ph =>
                   Forall is_bit ab ->
                   is_bit (bob_bit ph) /\ is_optional_bit (eve_bit ph))
                (fun ab abs bbs j w' Hab =>
                   classical_photon_bits H Hbits ab abs bbs _ _ _ j w' Hab)
                (fun ab abs bbs j w' _ =>
                   quantum_photon_bits H Hbits ab abs bbs _ _ j w')
                w i Hi) as (ph & Hat & Hp).
    exists ph. split; [exact Hat | exact (Hp Ha)]. }
  split; [exact Ha|]. split; [|split].
  - apply Forall_nth_error. intros i x Hx.
    assert (Hi : (i < Z.to_nat (get (numQubits p) 20%Z))%nat).
    { rewrite <- Lb. apply nth_error_Some. congruence. }
    destruct (Hph i Hi) as (ph & Hat & Hb & _).
    apply photon_at_inv in Hat. destruct Hat as (_ & _ & _ & E).
    congruence.
  - apply Forall_nth_error. intros i x Hx.
    assert (Hi : (i < Z.to_nat (get (numQubits p) 20%Z))%nat).
    { rewrite <- Le. apply nth_error_Some. congruence. }
    destruct (Hph i Hi) as (ph & Hat & _ & He).
    apply photon_at_inv in Hat. destruct Hat as (_ & E & _).
    congruence.
  - now apply final_key_of_bits.
Qed.

Lemma script_hosts_bits : bits_from Script.Classical /\ bits_from Script.Qiskit.
Proof.
  assert (Hr : forall w, is_bit (fst (Script.randint w))).
  { intros w. unfold Script.randint. destruct (Script.next w) as [q w'].
    cbn. destruct (Qltb q (1 # 2)); [now left | now right]. }
  assert (Hs : forall qc q w, is_bit (fst (Script.run qc q w))).
  { intros qc. induction qc as [|g qc IH]; intros q w; [now left|].
    destruct g; cbn [Script.run]; try apply IH.
    destruct q; try apply Hr; [now left | now right]. }
  split; split; try exact Hr; intros qc w; apply Hs.
Qed.

Lemma results_hold_bits_witness :
  bits_from Script.Qiskit
  /\ match fst (simulate Script.Qiskit
                  (mkParams (Some 2) (Some true) (Some 100%Q) None)
                  [0; 3 # 4; 0; 0; 0; 3 # 4; 0; 3 # 4; 3 # 4; 0; 0; 0]%Q)
     with
     | Ok r => Forall is_bit (bob_bits r)
     | Raise _ => False
     end.
Proof.
  split; [exact (proj2 script_hosts_bits)|].
  pose proof (results_hold_bits Script.Qiskit
                (mkParams (Some 2) (Some true) (Some 100%Q) None)
                [0; 3 # 4; 0; 0; 0; 3 # 4; 0; 3 # 4; 3 # 4; 0; 0; 0]%Q
                (proj2 script_hosts_bits)) as T.
  destruct (fst (simulate Script.Qiskit _ _)) as [r|e].
  - tauto.
  - destruct T as [T|T]; [cbn in T; lia | vm_compute in T; discriminate T].
Defined.

(** *** Eve's decision at the two ends of the range *)

Section EveDecision.

Context (H : Host).

Lemma classical_photon_intercepts (abits : list Z)
    (abases bbases : list basis) (inc_eve : bool) (rate noise : Q) (i : nat)
    (w : world H) :
  eve_intercepts
    (fst (classical_photon H abits abases bbases inc_eve rate noise i w))
  = fst (eve_decides H inc_eve rate w).
Proof.
  rewrite classical_photon_parts. cbn [eve_intercepts].
  unfold classical_eve, bind, ret.
  destruct (eve_decides H inc_eve rate w) as [[|] w1]; [|reflexivity].
  destruct (choice H w1) as [eb w2].
  now destruct (if basis_eqb eb _ then _ else _) as [x w3].
Qed.

Lemma quantum_photon_intercepts (abits : list Z)
    (abases bbases : list basis) (inc_eve : bool) (rate : Q) (i : nat)
    (w : world H) :
  eve_intercepts (fst (quantum_photon H abits abases bbases inc_eve rate i w))
  = fst (eve_decides H inc_eve rate w).
Proof.
  unfold quantum_photon, quantum_eve, bind, ret.
  destruct (eve_decides H inc_eve rate w) as [[|] w1].
  - destruct (choice H w1) as [eb w2].
    destruct (measure H _ eb w2) as [e w3].
    now destruct (measure H _ _ w3) as [b w4].
  - now destruct (measure H _ _ w1) as [b w2].
Qed.

Hypothesis in_unit : random_in_unit H.

Lemma eve_decides_always (rate : Q) (w : world H) :
  (1 <= rate)%Q -> fst (eve_decides H true rate w) = true.
Proof.
  intros Hr. unfold eve_decides, bind, ret.
  pose proof (in_unit w) as [_ H1].
  destruct (random H w) as [r w1]. cbn [fst] in *.
  apply Qltb_lt. lra.
Qed.

Lemma eve_decides_never (rate : Q) (w : world H) :
  (rate <= 0)%Q -> fst (eve_decides H true rate w) = false.
Proof.
  intros Hr. unfold eve_decides, bind, ret.
  pose proof (in_unit w) as [H0 _].
  destruct (random H w) as [r w1]. cbn [fst] in *.
  apply Qltb_ge. lra.
Qed.

End EveDecision.

(** X8.  With [includeEve] true and [random.random()] in [[0, 1)], in every
    result: an [eveInterceptionRate] of 100 or more has made Eve intercept
    every photon, and one of 0 or less has made her intercept none, in both
    backends (the quotient of line 46, rounded as it is, is then at least 1,
    or at most 0).  A run returns a result unless it has no photon or that
    quotient raises. *)
Theorem eve_rate_extremes (H : Host) (p : params) (w : world H) :
  random_in_unit H ->
  get (includeEve p) false = true ->
  match fst (simulate H p w) with
  | Ok r =>
      ((100 <= get (eveInterceptionRate p) 30)%Q ->
       Forall (fun b => b = true) (eve_interceptions r))
      /\ ((get (eveInterceptionRate p) 30 <= 0)%Q ->
          Forall (fun b => b = false) (eve_interceptions r))
  | Raise e => get (numQubits p) 20 <= 0 \/ eve_rate_of p = Raise e
  end.
Proof.
  intros Hu Hie.
  destruct (simulate_outcome H p w)
    as [(x & Ex & ->)|[[Hn ->]|(e & Erate & Hn & Hwf & ->)]];
    [right; exact Ex | left; exact Hn |].
  cbn [eve_interceptions result_of].
  destruct Hwf as (_ & _ & _ & _ & _ & _ & Hlen).
  assert (Hall : forall v : bool,
            (forall w', fst (eve_decides H true e w') = v)
            -> Forall (fun b => b = v)
                 (log_eve_interceptions
                    (tx_log (fst (transmission_with H p e w))))).
  { intros v Hv. apply Forall_nth_error. intros i x Hx.
    assert (Hi : (i < Z.to_nat (get (numQubits p) 20%Z))%nat).
    { rewrite <- Hlen. apply nth_error_Some. congruence. }
    destruct (simulate_photons H p e
                (fun _ _ _ _ ph => eve_intercepts ph = v))
      with (w := w) (i := i) as (ph & Hat & Hph).
    - intros. rewrite classical_photon_intercepts, Hie. apply Hv.
    - intros. rewrite quantum_photon_intercepts, Hie. apply Hv.
    - exact Hi.
    - apply photon_at_inv in Hat. destruct Hat as (E & _). congruence. }
  unfold eve_rate_of in Erate.
  split; intros Hr; apply Hall; intros w'.
  - apply eve_decides_always; [exact Hu|].
    exact (true_divide_ge_1 _ 100 e Hr Erate).
  - apply eve_decides_never; [exact Hu|].
    exact (true_divide_nonpos _ 100 e Hr Erate).
Qed.

Lemma eve_rate_extremes_witness :
  random_in_unit Script.Classical
  /\ get (includeEve (mkParams (Some 2) (Some true) (Some 250%Q) None)) false
     = true
  /\ match fst (simulate Script.Classical
                  (mkParams (Some 2) (Some true) (Some 250%Q) None)
                  [0; 0; 0; 0; 0; 0; 9 # 10; 0; 0; 9 # 10; 3 # 4; 0; 1 # 2]%Q)
     with
     | Ok r => Forall (fun b => b = true) (eve_interceptions r)
     | Raise _ => False
     end.
Proof.
  split; [exact script_classical_in_unit|]. split; [reflexivity|].
  pose proof (eve_rate_extremes Script.Classical
                (mkParams (Some 2) (Some true) (Some 250%Q) None)
                [0; 0; 0; 0; 0; 0; 9 # 10; 0; 0; 9 # 10; 3 # 4; 0; 1 # 2]%Q
                script_classical_in_unit eq_refl) as T.
  destruct (fst (simulate Script.Classical _ _)) as [r|e].
  - apply T. cbn. discriminate.
  - destruct T as [T|T]; [cbn in T; lia | vm_compute in T; discriminate T].
Defined.

(** *** The classical backend, photon by photon *)

Lemma classical_simulation_outcome (H : Host) (n : Z) (inc_eve : bool)
    (rate noise : Q) (w : world H) :
  let t := fst (classical_transmission H n inc_eve rate noise w) in
  (n <= 0
   /\ fst (_classical_simulation H n inc_eve rate noise w)
      = Raise ZeroDivisionError)
  \/ (1 <= n /\ well_formed (Z.to_nat n) t
      /\ fst (_classical_simulation H n inc_eve rate noise w)
         = Ok (result_of inc_eve t)).
Proof.
  intros t. rewrite classical_simulation_process. fold t.
  pose proof (transmit_well_formed H
                (fun abits abases bbases =>
                   classical_photon H abits abases bbases inc_eve rate noise)
                n w) as Hwf.
  fold (classical_transmission H n inc_eve rate noise w) in Hwf.
  fold t in Hwf.
  destruct (Z.le_gt_cases n 0) as [Hn|Hn].
  - left. split; [exact Hn|]. apply process_none.
    now replace 0%nat with (Z.to_nat n) by lia.
  - right. split; [lia|]. split; [exact Hwf|].
    apply (process_some _ _ (Z.to_nat n)); [exact Hwf | lia].
Qed.

(** The photon at an index of a classical transmission has every property
    that the body of the loop has in every world. *)
Lemma classical_photons (H : Host) (inc_eve : bool) (rate noise : Q)
    (P : list Z -> list basis -> list basis -> nat -> photon -> Prop) :
  (forall abits abases bbases i w,
      P abits abases bbases i
        (fst (classical_photon H abits abases bbases inc_eve rate noise
                i w))) ->
  forall (n : Z) (w : world H) (i : nat),
    (i < Z.to_nat n)%nat ->
    let t := fst (classical_transmission H n inc_eve rate noise w) in
    exists ph : photon,
      photon_at (tx_log t) i = Some ph
      /\ P (tx_alice_bits t) (tx_alice_bases t) (tx_bob_bases t) i ph.
Proof.
  intros Hp n w i Hi. unfold classical_transmission.
  now apply (transmit_photons H _ P Hp).
Qed.

Section ClassicalPhotons.

Context (H : Host).

(** Eve in Alice's basis reads Alice's bit. *)
Lemma classical_photon_eve_reads (abits : list Z)
    (abases bbases : list basis) (inc_eve : bool) (rate noise : Q) (i : nat)
    (w : world H) :
  let ph := fst (classical_photon H abits abases bbases inc_eve rate noise
                   i w) in
  eve_basis ph = Some (nth i abases BasisZ) ->
  eve_bit ph = Some (nth i abits 0).
Proof.
  cbv zeta. rewrite classical_photon_parts. cbn [eve_basis eve_bit].
  unfold classical_eve, bind, ret.
  destruct (eve_decides H inc_eve rate w) as [[|] w1]; [|discriminate].
  destruct (choice H w1) as [eb w2].
  destruct (basis_eqb eb (nth i abases BasisZ)) eqn:E.
  - reflexivity.
  - destruct (randint H w2) as [x w3]. cbn. intros E'.
    injection E' as ->. now rewrite basis_eqb_refl in E.
Qed.

Hypothesis in_unit : random_in_unit H.

(** Without noise, Bob in Alice's basis differs from Alice only behind an
    Eve who measured in the other basis. *)
Lemma classical_photon_error_is_eve (abits : list Z)
    (abases bbases : list basis) (inc_eve : bool) (rate noise : Q) (i : nat)
    (w : world H) :
  (noise <= 0)%Q ->
  let ph := fst (classical_photon H abits abases bbases inc_eve rate noise
                   i w) in
  basis_eqb (nth i abases BasisZ) (nth i bbases BasisZ) = true ->
  bob_bit ph <> nth i abits 0 ->
  eve_intercepts ph = true
  /\ exists eb : basis,
       eve_basis ph = Some eb /\ eb <> nth i abases BasisZ.
Proof.
  intros Hnoise. cbv zeta. rewrite classical_photon_parts.
  cbn [eve_intercepts eve_basis bob_bit].
  intros Hm. apply basis_eqb_eq in Hm.
  unfold classical_eve, bind, ret.
  destruct (eve_decides H inc_eve rate w) as [[|] w1].
  - destruct (choice H w1) as [eb w2].
    destruct (basis_eqb eb (nth i abases BasisZ)) eqn:E.
    + cbn [fst snd transmitted_bit transmitted_basis fw_intercepts
           fw_eve_basis].
      intros Hd. exfalso. apply Hd.
      apply (classical_bob_noiseless H in_unit noise Hnoise).
      apply basis_eqb_eq in E. rewrite E, <- Hm. apply basis_eqb_refl.
    + destruct (randint H w2) as [x w3].
      cbn [fst snd transmitted_bit transmitted_basis fw_intercepts
           fw_eve_basis].
      intros _. split; [reflexivity|]. exists eb. split; [reflexivity|].
      intros ->. now rewrite basis_eqb_refl in E.
  - cbn [fst snd transmitted_bit transmitted_basis fw_intercepts
         fw_eve_basis].
    intros Hd. exfalso. apply Hd.
    apply (classical_bob_noiseless H in_unit noise Hnoise).
    rewrite <- Hm. apply basis_eqb_refl.
Qed.

(** With [noise_level >= 1] and no Eve, Bob in Alice's basis reads the
    other bit. *)
Lemma classical_photon_flipped (abits : list Z) (abases bbases : list basis)
    (rate noise : Q) (i : nat) (w : world H) :
  (1 <= noise)%Q ->
  basis_eqb (nth i abases BasisZ) (nth i bbases BasisZ) = true ->
  bob_bit (fst (classical_photon H abits abases bbases false rate noise i w))
  = 1 - nth i abits 0.
Proof.
  intros Hnoise Hm. rewrite classical_photon_parts. cbn [bob_bit].
  unfold classical_eve, eve_decides, bind, ret.
  cbn [fst snd transmitted_bit transmitted_basis].
  unfold classical_bob.
  apply basis_eqb_eq in Hm. rewrite Hm, basis_eqb_refl.
  unfold bind, ret. pose proof (in_unit w) as [_ H1].
  destruct (random H w) as [r w1]. cbn [fst] in *.
  assert (E : Qltb r noise = true) by (apply Qltb_lt; lra).
  now rewrite E.
Qed.

End ClassicalPhotons.

(** X9.  In the classical backend, whenever Eve intercepts in Alice's basis
    she records Alice's bit. *)
Theorem eve_in_alice_basis_reads_alice_bit (H : Host) (n : Z)
    (inc_eve : bool) (rate noise : Q) (w : world H) :
  match fst (_classical_simulation H n inc_eve rate noise w) with
  | Ok r =>
      forall (i : nat) (ab : basis),
        nth_error (alice_bases r) i = Some ab ->
        nth_error (eve_bases r) i = Some (Some ab) ->
        exists a : Z,
          nth_error (alice_bits r) i = Some a
          /\ nth_error (eve_bits r) i = Some (Some a)
  | Raise _ => n <= 0
  end.
Proof.
  destruct (classical_simulation_outcome H n inc_eve rate noise w)
    as [[Hn ->]|(Hn & Hwf & ->)]; [exact Hn|].
  set (t := fst (classical_transmission H n inc_eve rate noise w)) in *.
  cbn [alice_bases alice_bits eve_bases eve_bits result_of].
  intros i ab Hab Heb.
  destruct Hwf as (La & Lb & _).
  assert (Hi : (i < Z.to_nat n)%nat).
  { rewrite <- Lb. apply nth_error_Some. congruence. }
  destruct (classical_photons H inc_eve rate noise
              (fun abits abases _ j ph =>
                 eve_basis ph = Some (nth j abases BasisZ) ->
                 eve_bit ph = Some (nth j abits 0))
              (fun abits abases bbases j w' =>
                 classical_photon_eve_reads H abits abases bbases _ _ _ j w')
              n w i Hi) as (ph & Hat & Hph).
  fold t in Hat, Hph.
  apply photon_at_inv in Hat. destruct Hat as (_ & E2 & E3 & _).
  rewrite (nth_error_nth _ _ BasisZ Hab) in Hph.
  exists (nth i (tx_alice_bits t) 0). split.
  - apply nth_error_nth'. lia.
  - rewrite E2. f_equal. apply Hph. congruence.
Qed.

(** X10.  In the classical backend with [noise_level <= 0] (and
    [random.random()] in [[0, 1)]), an error - matching bases, different
    bits - only occurs at a photon that Eve intercepted and measured in a
    basis other than Alice's. *)
Theorem noiseless_errors_reveal_eve (H : Host) (n : Z) (inc_eve : bool)
    (rate noise : Q) (w : world H) :
  random_in_unit H ->
  (noise <= 0)%Q ->
  match fst (_classical_simulation H n inc_eve rate noise w) with
  | Ok r =>
      forall (i : nat) (a b : Z),
        nth_error (matching_bases r) i = Some true ->
        nth_error (alice_bits r) i = Some a ->
        nth_error (bob_bits r) i = Some b ->
        a <> b ->
        nth_error (eve_interceptions r) i = Some true
        /\ exists eb ab : basis,
             nth_error (eve_bases r) i = Some (Some eb)
             /\ nth_error (alice_bases r) i = Some ab
             /\ eb <> ab
  | Raise _ => n <= 0
  end.
Proof.
  intros Hu Hnoise.
  destruct (classical_simulation_outcome H n inc_eve rate noise w)
    as [[Hn ->]|(Hn & Hwf & ->)]; [exact Hn|].
  set (t := fst (classical_transmission H n inc_eve rate noise w)) in *.
  cbn [matching_bases alice_bits bob_bits eve_interceptions eve_bases
       alice_bases result_of].
  intros i a b Hm Ha Hb Hab.
  destruct Hwf as (La & Lb & Lc & _).
  assert (Hi : (i < Z.to_nat n)%nat).
  { rewrite <- La. apply nth_error_Some. congruence. }
  rewrite compare_bases_nth in Hm by lia. injection Hm as Hm.
  destruct (classical_photons H inc_eve rate noise
              (fun abits abases bbases j ph =>
                 basis_eqb (nth j abases BasisZ) (nth j bbases BasisZ) = true
                 -> bob_bit ph <> nth j abits 0
                 -> eve_intercepts ph = true
                    /\ exists eb : basis,
                         eve_basis ph = Some eb
                         /\ eb <> nth j abases BasisZ)
              (fun abits abases bbases j w' =>
                 classical_photon_error_is_eve H Hu abits abases bbases
                   _ _ _ j w' Hnoise)
              n w i Hi) as (ph & Hat & Hph).
  fold t in Hat, Hph.
  apply photon_at_inv in Hat. destruct Hat as (E1 & _ & E3 & E4).
  assert (Hbob : bob_bit ph = b) by congruence.
  rewrite (nth_error_nth _ _ 0 Ha), Hbob in Hph.
  destruct (Hph Hm (not_eq_sym Hab)) as (Hint & eb & Heb & Hne).
  split; [congruence|].
  exists eb, (nth i (tx_alice_bases t) BasisZ).
  split; [congruence|]. split; [apply nth_error_nth'; lia | exact Hne].
Qed.

Lemma noiseless_errors_reveal_eve_witness :
  random_in_unit Script.Classical
  /\ (0 <= 0)%Q
  /\ match fst (_classical_simulation Script.Classical 1 true 1 0
                  [0; 0; 0; 0; 3 # 4; 3 # 4; 3 # 4]%Q) with
     | Ok r => nth_error (eve_interceptions r) 0 = Some true
     | Raise _ => False
     end.
Proof.
  split; [exact script_classical_in_unit|]. split; [apply Qle_refl|].
  pose proof (noiseless_errors_reveal_eve Script.Classical 1 true 1 0
                [0; 0; 0; 0; 3 # 4; 3 # 4; 3 # 4]%Q
                script_classical_in_unit (Qle_refl 0)) as T.
  destruct (fst (_classical_simulation Script.Classical 1 true 1 0 _))
    as [r|e] eqn:E.
  - vm_compute in E. injection E as <-.
    apply (T 0%nat 0 1); [reflexivity | reflexivity | reflexivity | lia].
  - lia.
Defined.

Lemma filter_nothing {A : Type} (p : A -> bool) (l : list A) :
  (forall x, In x l -> p x = false) -> filter p l = [].
Proof.
  induction l as [|x l IH]; intros Hp; [reflexivity|].
  simpl. rewrite (Hp x (or_introl eq_refl)).
  apply IH. intros y Hy. apply Hp. now right.
Qed.

(** When no sifted record agrees: an empty key, and every sifted record an
    error. *)
Lemma all_sifted_disagree (rs : list Spec.PhotonRecord) :
  (forall r, In r rs -> Spec.basesMatch r = true -> Spec.agree r = false) ->
  Spec.finalKey rs = []
  /\ (fidelity_of rs == 0)%Q
  /\ (Spec.errorRate rs == if 0 <? Spec.siftedCount rs then 1 else 0)%Q.
Proof.
  intros Hall.
  assert (Hs : forall r, In r (Spec.sifted rs) -> Spec.agree r = false).
  { intros r Hr. apply filter_In in Hr. destruct Hr. now apply Hall. }
  assert (Hk : Spec.finalKey rs = []).
  { unfold Spec.finalKey. now rewrite (filter_nothing _ _ Hs). }
  assert (He : Spec.errorCount rs = Spec.siftedCount rs).
  { unfold Spec.errorCount, Spec.siftedCount.
    rewrite filter_all; [reflexivity|].
    intros r Hr. now rewrite (Hs r Hr). }
  split; [exact Hk|].
  unfold fidelity_of, Spec.errorRate. rewrite Hk, He.
  assert (0 <= Spec.siftedCount rs) by (unfold Spec.siftedCount; lia).
  destruct (Z.eqb_spec (Spec.siftedCount rs) 0) as [E|E].
  - rewrite E. split; reflexivity.
  - destruct (Z.ltb_spec 0 (Spec.siftedCount rs)); [|lia].
    assert (Hnz : ~ (inject_Z (Spec.siftedCount rs) == 0)%Q).
    { unfold Qeq. cbn [Qnum Qden inject_Z]. lia. }
    split; [reflexivity | field; exact Hnz].
Qed.

(** X11.  In the classical backend without Eve and with [noise_level >= 1]
    (and [random.random()] in [[0, 1)]), Bob reads [1 - a] wherever the bases
    match and Alice sent [a]; so the key is empty, the efficiency and the
    fidelity are 0, and the error rate is 1 as soon as one basis matches. *)
Theorem saturated_noise_empties_key (H : Host) (n : Z) (rate noise : Q)
    (w : world H) :
  random_in_unit H ->
  (1 <= noise)%Q ->
  match fst (_classical_simulation H n false rate noise w) with
  | Ok r =>
      (forall (i : nat) (a : Z),
          nth_error (matching_bases r) i = Some true ->
          nth_error (alice_bits r) i = Some a ->
          nth_error (bob_bits r) i = Some (1 - a))
      /\ final_key r = []
      /\ (transmission_efficiency r == 0)%Q
      /\ (quantum_fidelity r == 0)%Q
      /\ (error_rate r
          == if 0 <? count_true (matching_bases r) then 1 else 0)%Q
  | Raise _ => n <= 0
  end.
Proof.
  intros Hu Hnoise.
  destruct (classical_simulation_outcome H n false rate noise w)
    as [[Hn ->]|(Hn & Hwf & ->)]; [exact Hn|].
  set (t := fst (classical_transmission H n false rate noise w)) in *.
  cbn [matching_bases alice_bits bob_bits final_key transmission_efficiency
       quantum_fidelity error_rate result_of].
  assert (Hflip : forall i : nat,
            (i < Z.to_nat n)%nat ->
            basis_eqb (nth i (tx_alice_bases t) BasisZ)
                      (nth i (tx_bob_bases t) BasisZ) = true ->
            nth_error (log_bob_bits (tx_log t)) i
            = Some (1 - nth i (tx_alice_bits t) 0)).
  { intros i Hi Hm.
    destruct (classical_photons H false rate noise
                (fun abits abases bbases j ph =>
                   basis_eqb (nth j abases BasisZ) (nth j bbases BasisZ)
                   = true -> bob_bit ph = 1 - nth j abits 0)
                (fun abits abases bbases j w' =>
                   classical_photon_flipped H Hu abits abases bbases _ _ j w'
                     Hnoise)
                n w i Hi) as (ph & Hat & Hph).
    fold t in Hat, Hph.
    apply photon_at_inv in Hat. destruct Hat as (_ & _ & _ & E4).
    rewrite E4. f_equal. now apply Hph. }
  pose proof (count_matching t _ Hwf) as Hcount.
  destruct Hwf as (La & Lb & Lc & Ld & _).
  assert (Hdis : forall r, In r (records_of t) ->
            Spec.basesMatch r = true -> Spec.agree r = false).
  { intros r Hr Hm.
    unfold records_of, Spec.records, Spec.records_from in Hr.
    apply in_map_iff in Hr. destruct Hr as (i & <- & Hi).
    apply in_seq in Hi. unfold Spec.basesMatch in Hm. cbn in Hm.
    pose proof (Hflip i ltac:(lia) Hm) as Hb.
    unfold Spec.agree. cbn.
    rewrite (nth_error_nth _ _ 0 Hb). apply Z.eqb_neq. lia. }
  destruct (all_sifted_disagree (records_of t) Hdis) as (Hk & Hf & He).
  split; [|split; [exact Hk|split; [|split; [exact Hf|]]]].
  - intros i a Hm Ha.
    assert (Hi : (i < Z.to_nat n)%nat).
    { rewrite <- La. apply nth_error_Some. congruence. }
    rewrite compare_bases_nth in Hm by lia. injection Hm as Hm.
    rewrite (Hflip i Hi Hm). now rewrite (nth_error_nth _ _ 0 Ha).
  - rewrite Hk. reflexivity.
  - unfold count_true. rewrite Hcount. exact He.
Qed.

Lemma saturated_noise_empties_key_witness :
  random_in_unit Script.Classical
  /\ (1 <= 3 # 2)%Q
  /\ match fst (_classical_simulation Script.Classical 2 false 0 (3 # 2)
                  [0; 3 # 4; 0; 0; 0; 0; 1 # 2; 9 # 10]%Q) with
     | Ok r => final_key r = []
     | Raise _ => False
     end.
Proof.
  split; [exact script_classical_in_unit|].
  split; [unfold Qle; simpl; lia|].
  pose proof (saturated_noise_empties_key Script.Classical 2 0 (3 # 2)
                [0; 3 # 4; 0; 0; 0; 0; 1 # 2; 9 # 10]%Q
                script_classical_in_unit ltac:(unfold Qle; simpl; lia)) as T.
  destruct (fst (_classical_simulation Script.Classical 2 false 0 (3 # 2) _))
    as [r|e].
  - tauto.
  - lia.
Defined.

(** *** The choice of the backend *)

(** X12.  When Qiskit is available and [numQubits <= 50], [noiseLevel] is
    never read: whatever it is replaced with, [simulate] has the same outcome
    and leaves the same random state. *)
Theorem qiskit_ignores_noise (H : Host) (p : params) (noise' : option Q)
    (w : world H) :
  QISKIT_AVAILABLE H = true ->
  get (numQubits p) 20 <= 50 ->
  simulate H (mkParams (numQubits p) (includeEve p) (eveInterceptionRate p)
                noise') w
  = simulate H p w.
Proof.
  intros Hq Hn. unfold simulate.
  cbn [numQubits includeEve eveInterceptionRate noiseLevel].
  rewrite Hq. destruct (Z.leb_spec (get (numQubits p) 20) 50); [|lia].
  reflexivity.
Qed.

Lemma qiskit_ignores_noise_witness :
  QISKIT_AVAILABLE Script.Qiskit = true
  /\ get (numQubits (mkParams (Some 2) None None (Some 1%Q))) 20 <= 50
  /\ simulate Script.Qiskit (mkParams (Some 2) None None (Some 0%Q))
       [0; 3 # 4; 0; 0; 0; 0]%Q
     = simulate Script.Qiskit (mkParams (Some 2) None None (Some 1%Q))
         [0; 3 # 4; 0; 0; 0; 0]%Q.
Proof.
  split; [reflexivity|]. split; [simpl; lia|].
  apply (qiskit_ignores_noise Script.Qiskit
           (mkParams (Some 2) None None (Some 1%Q)) (Some 0%Q)
           [0; 3 # 4; 0; 0; 0; 0]%Q); [reflexivity | simpl; lia].
Defined.

Section OtherBackend.

Context (H : Host).
Variable available : bool.
Variable shot : circuit -> world H -> Z * world H.

(** The host [H] with another answer to the import of Qiskit and another
    backend. *)
Let H' : Host :=
  mkHost (world H) (randint H) (choice H) (random H) available shot.

Lemma photon_loop_other_backend (body : nat -> Rand (world H) photon)
    (idx : list nat) (l : log) (w : world H) :
  photon_loop H' body idx l w = photon_loop H body idx l w.
Proof.
  revert l w. induction idx as [|i idx IH]; intros l w; [reflexivity|].
  cbn [photon_loop]. unfold bind. destruct (body i w) as [ph w1]. apply IH.
Qed.

Lemma classical_simulation_other_backend (n : Z) (inc_eve : bool)
    (rate noise : Q) (w : world H) :
  _classical_simulation H' n inc_eve rate noise w
  = _classical_simulation H n inc_eve rate noise w.
Proof.
  unfold _classical_simulation. apply bind_ext; [|reflexivity].
  unfold classical_transmission, transmit.
  apply bind_ext; [reflexivity|]. intros abits w1.
  apply bind_ext; [reflexivity|]. intros abases w2.
  apply bind_ext; [reflexivity|]. intros bbases w3.
  apply bind_ext; [|reflexivity].
  apply photon_loop_other_backend.
Qed.

End OtherBackend.

(** X13.  With [numQubits > 50] the Qiskit backend is never used: the
    outcome of [simulate] and the random state it leaves are the same
    whether Qiskit is available or not, and whatever its shots return. *)
Theorem beyond_50_qubits_no_qiskit (H : Host) (available : bool)
    (shot : circuit -> world H -> Z * world H) (p : params) (w : world H) :
  50 < get (numQubits p) 20 ->
  simulate (mkHost (world H) (randint H) (choice H) (random H) available shot)
    p w
  = simulate H p w.
Proof.
  intros Hn. unfold simulate.
  destruct (eve_rate_of p) as [e|x]; [|reflexivity].
  cbn [QISKIT_AVAILABLE].
  destruct (Z.leb_spec (get (numQubits p) 20) 50); [lia|].
  rewrite !andb_false_r.
  apply classical_simulation_other_backend.
Qed.

Lemma beyond_50_qubits_no_qiskit_witness :
  50 < get (numQubits (mkParams (Some 51) None None None)) 20
  /\ simulate Script.Qiskit (mkParams (Some 51) None None None) [3 # 4]%Q
     = simulate Script.Classical (mkParams (Some 51) None None None)
         [3 # 4]%Q.
Proof.
  split; [simpl; lia|].
  apply (beyond_50_qubits_no_qiskit Script.Classical true
           (fun qc => Script.run qc Script.Zero)
           (mkParams (Some 51) None None None) [3 # 4]%Q).
  simpl. lia.
Defined.

(** *** The Qiskit backend, photon by photon *)

(** X14.  In the Qiskit backend, for every photon [i], in the world the
    first [i] iterations leave: if Eve does not intercept, Bob's bit is one
    shot of Alice's circuit followed by Bob's change of basis and a
    measurement; if she does, her bit is one shot of Alice's circuit
    measured in her basis, and Bob's bit is one shot of a fresh circuit
    prepared from Eve's bit and basis alone. *)
Theorem qiskit_shots (H : Host) (n : Z) (inc_eve : bool) (rate : Q)
    (w : world H) (i : nat) :
  (i < Z.to_nat n)%nat ->
  let body := fun abits abases bbases =>
    quantum_photon H abits abases bbases inc_eve rate in
  let t := fst (quantum_transmission H n inc_eve rate w) in
  let alice :=
    prepare (nth i (tx_alice_bits t) 0) (nth i (tx_alice_bases t) BasisZ) in
  let b_basis := nth i (tx_bob_bases t) BasisZ in
  let decision := eve_decides H inc_eve rate
                    (snd (transmit_until H body n i w)) in
  if fst decision then
    let pick := choice H (snd decision) in
    let eve_shot :=
      run_shot H (alice ++ hadamard_if_X (fst pick) ++ [Measure])
        (snd pick) in
    nth_error (log_eve_interceptions (tx_log t)) i = Some true
    /\ nth_error (log_eve_bases (tx_log t)) i = Some (Some (fst pick))
    /\ nth_error (log_eve_bits (tx_log t)) i = Some (Some (fst eve_shot))
    /\ nth_error (log_bob_bits (tx_log t)) i
       = Some (fst (run_shot H
                      (prepare (fst eve_shot) (fst pick)
                       ++ hadamard_if_X b_basis ++ [Measure])
                      (snd eve_shot)))
  else
    nth_error (log_eve_interceptions (tx_log t)) i = Some false
    /\ nth_error (log_eve_bases (tx_log t)) i = Some None
    /\ nth_error (log_eve_bits (tx_log t)) i = Some None
    /\ nth_error (log_bob_bits (tx_log t)) i
       = Some (fst (run_shot H (alice ++ hadamard_if_X b_basis ++ [Measure])
                      (snd decision))).
Proof.
  intros Hi body t alice b_basis decision.
  assert (Hat : photon_at (tx_log t) i
                = Some (fst (quantum_photon H (tx_alice_bits t)
                               (tx_alice_bases t) (tx_bob_bases t) inc_eve
                               rate i
                               (snd (transmit_until H body n i w)))))
    by exact (transmit_photon_at H body n i w Hi).
  apply photon_at_inv in Hat. destruct Hat as (E1 & E2 & E3 & E4).
  rewrite E1, E2, E3, E4. clear E1 E2 E3 E4.
  unfold quantum_photon, quantum_eve, bind, ret, measure.
  fold alice b_basis decision.
  destruct decision as [[|] w1]; cbn [fst snd].
  - destruct (choice H w1) as [eb w2]. cbn [fst snd].
    destruct (run_shot H (alice ++ hadamard_if_X eb ++ [Measure]) w2)
      as [e w3]. cbn [fst snd].
    destruct (run_shot H _ w3) as [b w4]. cbn. auto.
  - destruct (run_shot H _ w1) as [b w2]. cbn. auto.
Qed.

Lemma qiskit_shots_witness :
  (0 < Z.to_nat 1)%nat
  /\ nth_error
       (log_bob_bits
          (tx_log (fst (quantum_transmission Script.Qiskit 1 true 1
                          [3 # 4; 0; 0; 0; 0]%Q)))) 0
     = Some 1.
Proof.
  split; [simpl; lia|].
  pose proof (qiskit_shots Script.Qiskit 1 true 1 [3 # 4; 0; 0; 0; 0]%Q
                0%nat ltac:(simpl; lia)) as T.
  cbv zeta in T.
  destruct (fst (eve_decides Script.Qiskit true 1 _)) eqn:E.
  - destruct T as (_ & _ & _ & T). rewrite T. reflexivity.
  - vm_compute in E. discriminate E.
Defined.

(** *** How much of [random] a run consumes *)

Section Counting.

Context (H : Host).

Lemma tracks_ret {A : Type} (a : A) :
  tracks (H := H) 0 0 (ret a) (ret a).
Proof.
  intros w c. exists 0%nat. split; [lia|].
  unfold ret. cbn. now rewrite Nat.add_0_r.
Qed.

Lemma tracks_bind {A B : Type} (lo1 hi1 lo2 hi2 : nat)
    (mC : Rand (world H * nat) A) (m : Rand (world H) A)
    (fC : A -> Rand (world H * nat) B) (f : A -> Rand (world H) B) :
  tracks lo1 hi1 mC m ->
  (forall a, tracks lo2 hi2 (fC a) (f a)) ->
  tracks (lo1 + lo2) (hi1 + hi2) (bind mC fC) (bind m f).
Proof.
  intros Hm Hf w c. destruct (Hm w c) as (k1 & Hk1 & E1).
  unfold bind. rewrite E1. destruct (m w) as [a w1]. cbn [fst snd].
  destruct (Hf a w1 (c + k1)%nat) as (k2 & Hk2 & E2).
  exists (k1 + k2)%nat. split; [lia|].
  rewrite E2. now rewrite Nat.add_assoc.
Qed.

Lemma tracks_weaken {A : Type} (lo hi lo' hi' : nat)
    (mC : Rand (world H * nat) A) (m : Rand (world H) A) :
  (lo' <= lo)%nat -> (hi <= hi')%nat ->
  tracks lo hi mC m -> tracks lo' hi' mC m.
Proof.
  intros Hlo Hhi Hm w c. destruct (Hm w c) as (k & Hk & E).
  exists k. split; [lia | exact E].
Qed.

Lemma tracks_randint : tracks 1 1 (randint (counted H)) (randint H).
Proof.
  intros w c. exists 1%nat. split; [lia|]. cbn.
  destruct (randint H w) as [x w']. cbn. now rewrite Nat.add_1_r.
Qed.

Lemma tracks_choice : tracks 1 1 (choice (counted H)) (choice H).
Proof.
  intros w c. exists 1%nat. split; [lia|]. cbn.
  destruct (choice H w) as [x w']. cbn. now rewrite Nat.add_1_r.
Qed.

Lemma tracks_random : tracks 1 1 (random (counted H)) (random H).
Proof.
  intros w c. exists 1%nat. split; [lia|]. cbn.
  destruct (random H w) as [x w']. cbn. now rewrite Nat.add_1_r.
Qed.

Lemma tracks_run_shot (qc : circuit) :
  tracks 0 0 (run_shot (counted H) qc) (run_shot H qc).
Proof.
  intros w c. exists 0%nat. split; [lia|]. cbn.
  destruct (run_shot H qc w) as [x w']. cbn. now rewrite Nat.add_0_r.
Qed.

Lemma tracks_draws {A : Type} (lo hi : nat)
    (fC : Rand (world H * nat) A) (f : Rand (world H) A) (n : nat) :
  tracks lo hi fC f ->
  tracks (n * lo) (n * hi) (draws fC n) (draws f n).
Proof.
  intros Hf. induction n as [|n IH]; [apply tracks_ret|].
  cbn [draws Nat.mul].
  apply tracks_bind; [exact Hf|]. intros x.
  replace (n * lo)%nat with (n * lo + 0)%nat by lia.
  replace (n * hi)%nat with (n * hi + 0)%nat by lia.
  apply tracks_bind; [exact IH|]. intros xs. apply tracks_ret.
Qed.

Lemma tracks_photon_loop (lo hi : nat)
    (bodyC : nat -> Rand (world H * nat) photon)
    (body : nat -> Rand (world H) photon) (idx : list nat) (l : log) :
  (forall i, tracks lo hi (bodyC i) (body i)) ->
  tracks (length idx * lo) (length idx * hi)
    (photon_loop (counted H) bodyC idx l) (photon_loop H body idx l).
Proof.
  intros Hb. revert l. induction idx as [|i idx IH]; intros l;
    [apply tracks_ret|].
  cbn [photon_loop length Nat.mul].
  apply tracks_bind; [apply Hb|]. intros ph. apply IH.
Qed.

Lemma tracks_transmit (lo hi : nat)
    (bodyC : list Z -> list basis -> list basis -> nat
             -> Rand (world H * nat) photon)
    (body : list Z -> list basis -> list basis -> nat
            -> Rand (world H) photon) (n : Z) :
  (forall abits abases bbases i,
      tracks lo hi (bodyC abits abases bbases i)
        (body abits abases bbases i)) ->
  tracks (Z.to_nat n * (3 + lo)) (Z.to_nat n * (3 + hi))
    (transmit (counted H) bodyC n) (transmit H body n).
Proof.
  intros Hb. unfold transmit.
  replace (Z.to_nat n * (3 + lo))%nat
    with (Z.to_nat n * 1
          + (Z.to_nat n * 1
             + (Z.to_nat n * 1 + (length (range n) * lo + 0))))%nat
    by (unfold range; rewrite length_seq; lia).
  replace (Z.to_nat n * (3 + hi))%nat
    with (Z.to_nat n * 1
          + (Z.to_nat n * 1
             + (Z.to_nat n * 1 + (length (range n) * hi + 0))))%nat
    by (unfold range; rewrite length_seq; lia).
  apply tracks_bind; [apply tracks_draws, tracks_randint|]. intros abits.
  apply tracks_bind; [apply tracks_draws, tracks_choice|]. intros abases.
  apply tracks_bind; [apply tracks_draws, tracks_choice|]. intros bbases.
  apply tracks_bind; [now apply tracks_photon_loop|]. intros l.
  apply tracks_ret.
Qed.

Lemma tracks_eve_decides (inc_eve : bool) (rate : Q) :
  tracks (decision_calls inc_eve) (decision_calls inc_eve)
    (eve_decides (counted H) inc_eve rate) (eve_decides H inc_eve rate).
Proof.
  unfold eve_decides, decision_calls. destruct inc_eve; [|apply tracks_ret].
  change 1%nat with (1 + 0)%nat.
  apply tracks_bind; [apply tracks_random|]. intros r. apply tracks_ret.
Qed.

Lemma tracks_classical_eve (abits : list Z) (abases : list basis)
    (inc_eve : bool) (rate : Q) (i : nat) :
  tracks (decision_calls inc_eve) (3 * decision_calls inc_eve)
    (classical_eve (counted H) abits abases inc_eve rate i)
    (classical_eve H abits abases inc_eve rate i).
Proof.
  destruct inc_eve; cbn [decision_calls Nat.mul Nat.add].
  - unfold classical_eve.
    apply (tracks_bind 1 1 0 2); [apply (tracks_eve_decides true)|].
    intros [|].
    + apply (tracks_weaken (1 + 0) (1 + 1)); [lia | lia |].
      apply (tracks_bind 1 1 0 1 (choice (counted H)) (choice H));
        [apply tracks_choice|].
      intros eb.
      apply (tracks_bind 0 1 0 0); [|intros x; apply tracks_ret].
      destruct (basis_eqb eb (nth i abases BasisZ)).
      * apply (tracks_weaken 0 0); [lia | lia | apply tracks_ret].
      * apply (tracks_weaken 1 1); [lia | lia | apply tracks_randint].
    + apply (tracks_weaken 0 0); [lia | lia | apply tracks_ret].
  - intros w c. exists 0%nat. split; [lia|].
    cbn. now rewrite Nat.add_0_r.
Qed.

Lemma tracks_classical_bob (b : basis) (t_bit : Z) (t_basis : basis)
    (noise : Q) :
  tracks 1 1 (classical_bob (counted H) b t_bit t_basis noise)
    (classical_bob H b t_bit t_basis noise).
Proof.
  unfold classical_bob. destruct (basis_eqb b t_basis).
  - apply (tracks_bind 1 1 0 0); [apply tracks_random|].
    intros r. apply tracks_ret.
  - apply tracks_randint.
Qed.

Lemma tracks_classical_photon (abits : list Z) (abases bbases : list basis)
    (inc_eve : bool) (rate noise : Q) (i : nat) :
  tracks (1 + decision_calls inc_eve) (1 + 3 * decision_calls inc_eve)
    (classical_photon (counted H) abits abases bbases inc_eve rate noise i)
    (classical_photon H abits abases bbases inc_eve rate noise i).
Proof.
  unfold classical_photon.
  apply (tracks_weaken (decision_calls inc_eve + (1 + 0))
           (3 * decision_calls inc_eve + (1 + 0))); [lia | lia |].
  apply tracks_bind; [apply tracks_classical_eve|]. intros fw.
  apply tracks_bind; [apply tracks_classical_bob|]. intros b.
  apply tracks_ret.
Qed.

Lemma tracks_measure (qc : circuit) (b : basis) :
  tracks 0 0 (measure (counted H) qc b) (measure H qc b).
Proof. unfold measure. apply tracks_run_shot. Qed.

Lemma tracks_quantum_photon (abits : list Z) (abases bbases : list basis)
    (inc_eve : bool) (rate : Q) (i : nat) :
  tracks (decision_calls inc_eve) (2 * decision_calls inc_eve)
    (quantum_photon (counted H) abits abases bbases inc_eve rate i)
    (quantum_photon H abits abases bbases inc_eve rate i).
Proof.
  unfold quantum_photon.
  apply (tracks_weaken (decision_calls inc_eve + (0 + 0))
           (2 * decision_calls inc_eve + (0 + 0))); [lia | lia |].
  apply tracks_bind.
  - destruct inc_eve; cbn [decision_calls Nat.mul Nat.add].
    + unfold quantum_eve.
      apply (tracks_bind 1 1 0 1); [apply (tracks_eve_decides true)|].
      intros [|].
      * apply (tracks_weaken (1 + 0) (1 + 0)); [lia | lia |].
        apply (tracks_bind 1 1 0 0 (choice (counted H)) (choice H));
          [apply tracks_choice|].
        intros eb.
        apply (tracks_bind 0 0 0 0); [apply tracks_measure|].
        intros e. apply tracks_ret.
      * apply (tracks_weaken 0 0); [lia | lia | apply tracks_ret].
    + intros w c. exists 0%nat. split; [lia|].
      cbn. now rewrite Nat.add_0_r.
  - intros [[[intercepts e_bit] e_basis] qc'].
    apply tracks_bind; [apply tracks_measure|]. intros b. apply tracks_ret.
Qed.

End Counting.

(** X15.  On a host that counts the calls to [random], a run returns what
    it returns on the host itself, and leaves its world.  A run whose
    quotient of line 46 raises makes no call; any other, with
    [n = max(numQubits, 0)], makes exactly [3 n] calls in the Qiskit backend
    and [4 n] in the classical one when Eve is not included, and between
    [4 n] and [5 n], respectively between [5 n] and [7 n], when she is. *)
Theorem random_calls_of_a_run (H : Host) (p : params) (w : world H)
    (c : nat) :
  let n := Z.to_nat (get (numQubits p) 20) in
  let d := decision_calls (get (includeEve p) false) in
  exists k : nat,
    simulate (counted H) p (w, c)
    = (fst (simulate H p w), (snd (simulate H p w), (c + k)%nat))
    /\ match eve_rate_of p with
       | Raise _ => k = 0%nat
       | Ok _ =>
           if QISKIT_AVAILABLE H && (get (numQubits p) 20 <=? 50)
           then (n * (3 + d) <= k <= n * (3 + 2 * d))%nat
           else (n * (4 + d) <= k <= n * (4 + 3 * d))%nat
       end.
Proof.
  intros n d. unfold simulate.
  destruct (eve_rate_of p) as [e|x].
  2:{ exists 0%nat. split; [|reflexivity].
      unfold ret. cbn [fst snd]. now rewrite Nat.add_0_r. }
  cbn [QISKIT_AVAILABLE counted].
  destruct (QISKIT_AVAILABLE H && (get (numQubits p) 20 <=? 50)).
  - assert (T : tracks (n * (3 + d) + 0) (n * (3 + 2 * d) + 0)
                  (_quantum_simulation (counted H) (get (numQubits p) 20)
                     (get (includeEve p) false) e
                     (get (noiseLevel p) default_noise_level))
                  (_quantum_simulation H (get (numQubits p) 20)
                     (get (includeEve p) false) e
                     (get (noiseLevel p) default_noise_level))).
    { unfold _quantum_simulation, quantum_transmission.
      apply tracks_bind; [|intros t; apply tracks_ret].
      apply tracks_transmit. intros. apply tracks_quantum_photon. }
    destruct (T w c) as (k & Hk & E). exists k. split; [exact E | lia].
  - assert (T : tracks (n * (3 + (1 + d)) + 0) (n * (3 + (1 + 3 * d)) + 0)
                  (_classical_simulation (counted H) (get (numQubits p) 20)
                     (get (includeEve p) false) e
                     (get (noiseLevel p) default_noise_level))
                  (_classical_simulation H (get (numQubits p) 20)
                     (get (includeEve p) false) e
                     (get (noiseLevel p) default_noise_level))).
    { unfold _classical_simulation, classical_transmission.
      apply tracks_bind; [|intros t; apply tracks_ret].
      apply tracks_transmit. intros. apply tracks_classical_photon. }
    destruct (T w c) as (k & Hk & E). exists k. split; [exact E | lia].
Qed.
